(** * Crossword CSP solver: a shallow embedding of [generate.py]

    The class [CrosswordCreator] keeps a puzzle description and a mutable
    store of domains.  Its methods are embedded as functions over a record
    holding the fields of [self]; methods that update [self.domains] return
    the new record together with their value.

    Modelling conventions.
    - A Python [set] is a [gset], a [dict] a [gmap]; iterating over one
      goes through [elements] / [map_to_list].  Python leaves the iteration
      order of a set unspecified; the theorems below are stated on
      membership and none of them depends on that order.
    - Words are strings of one-byte characters, and [len] is
      [String.length].
    - [word[i]] raises [IndexError] out of range and [d[k]] raises
      [KeyError] on a missing key; both are kept ([exn]).
    - The [while] loop of [ac3] and the recursion of [backtrack] consume
      fuel; running out of it is a separate outcome, and termination is
      proved by exhibiting enough fuel. *)

From stdpp Require Import gmap strings list fin_maps fin_sets sorting.

(** ** Variables (slots of the grid) *)

(** [Variable] of [crossword.py] (the name is reserved in Rocq): the
    start cell, the direction and the length of a slot.  The length and the
    overlap indices are non-negative integers (spec, section 6). *)
Module Var.
Inductive Direction := ACROSS | DOWN.

Record t := mk { i : Z; j : Z; direction : Direction; length : nat }.

#[global] Instance direction_eq_dec : EqDecision Direction.
Proof. solve_decision. Defined.

#[global] Instance eq_dec : EqDecision t.
Proof. solve_decision. Defined.

#[global] Instance direction_countable : Countable Direction.
Proof.
  refine (inj_countable' (λ d, match d with ACROSS => false | DOWN => true end)
                         (λ b : bool, if b then DOWN else ACROSS) _).
  by intros [].
Defined.

#[global] Instance countable : Countable t.
Proof.
  refine (inj_countable' (λ v, (i v, j v, direction v, length v))
                         (λ '(a, b, c, d), mk a b c d) _).
  by intros [].
Defined.
End Var.

(** ** The puzzle description

    [crossword.py] is imported by [generate.py] but is not among the
    sources; the solver only reads [variables], [words], [overlaps] and
    [neighbors] from it.  The first three are taken as data. *)

Record Crossword := {
  variables : gset Var.t;
  words : gset string;
  overlaps : gmap (Var.t * Var.t) (option (nat * nat))
}.

(** [self.crossword.overlaps.get((x, y))]: [None] both for a missing pair
    and for a pair stored with the value [None]. *)
Definition overlaps_get (cw : Crossword) (x y : Var.t) : option (nat * nat) :=
  match overlaps cw !! (x, y) with
  | Some (Some ij) => Some ij
  | _ => None
  end.

(** Modelled from the spec: [Crossword.neighbors] is defined in
    [crossword.py], which is missing.  The spec (section 3) derives it from
    the overlap relation: the set of variables intersecting a given one. *)
Definition neighbors (cw : Crossword) (var : Var.t) : gset Var.t :=
  filter (λ v, v ≠ var ∧ is_Some (overlaps_get cw v var)) (variables cw).

(** Modelled from the spec: the input contract of sections 3 and 6 on the
    overlap relation, which [crossword.py] establishes: it relates distinct
    variables of the puzzle, is symmetric in content, and its indices lie
    inside the two slots. *)
Definition overlap_ok (cw : Crossword) (xy : Var.t * Var.t)
    (o : option (nat * nat)) : Prop :=
  match o with
  | None => True
  | Some (i, j) =>
      xy.1 ∈ variables cw ∧ xy.2 ∈ variables cw ∧ xy.1 ≠ xy.2 ∧
      overlaps cw !! (xy.2, xy.1) = Some (Some (j, i)) ∧
      i < Var.length xy.1 ∧ j < Var.length xy.2
  end.

#[global] Instance overlap_ok_dec cw xy o : Decision (overlap_ok cw xy o).
Proof. destruct o as [[i j]|]; simpl; apply _. Defined.

Definition well_formed (cw : Crossword) : Prop :=
  map_Forall (λ xy o, overlap_ok cw xy o) (overlaps cw).

(** ** The solver object and the outcome of running a method *)

Record CrosswordCreator := {
  crossword : Crossword;
  domains : gmap Var.t (gset string);
  (** Instrumentation, not a field of the Python object: the number of
      times [backtrack] has been entered. *)
  backtrack_calls : nat
}.

Definition set_domains (d : gmap Var.t (gset string)) (self : CrosswordCreator)
    : CrosswordCreator :=
  {| crossword := crossword self; domains := d;
     backtrack_calls := backtrack_calls self |}.

Definition count_backtrack_call (self : CrosswordCreator) : CrosswordCreator :=
  {| crossword := crossword self; domains := domains self;
     backtrack_calls := S (backtrack_calls self) |}.

Inductive exn := KeyError | IndexError.

(** Evaluation of an expression that does not change [self]. *)
Inductive E (A : Type) :=
  | Val (a : A)
  | Err (e : exn).
Arguments Val {A} a.
Arguments Err {A} e.

#[global] Instance E_ret : MRet E := @Val.
#[global] Instance E_bind : MBind E := λ A B f m,
  match m with
  | Val a => f a
  | Err e => Err e
  end.

(** Execution of a method: it returns a value, raises, or the model runs
    out of fuel; in each case the state of [self] at that point is kept. *)
Inductive result (A : Type) :=
  | Ok (a : A) (self : CrosswordCreator)
  | Raise (e : exn) (self : CrosswordCreator)
  | OutOfFuel (self : CrosswordCreator).
Arguments Ok {A} a self.
Arguments Raise {A} e self.
Arguments OutOfFuel {A} self.

Definition final_state {A} (r : result A) : CrosswordCreator :=
  match r with
  | Ok _ s | Raise _ s | OutOfFuel s => s
  end.

Definition lift {A} (m : E A) (self : CrosswordCreator) : result A :=
  match m with
  | Val a => Ok a self
  | Err e => Raise e self
  end.

(** [mapE f l]: a comprehension [[f(x) for x in l]] whose body may raise. *)
Fixpoint mapE {A B} (f : A → E B) (l : list A) : E (list B) :=
  match l with
  | [] => Val []
  | x :: l' => y ← f x; ys ← mapE f l'; Val (y :: ys)
  end.

(** [word[i]] for a non-negative index. *)
Definition index (word : string) (i : nat) : E Ascii.ascii :=
  match String.get i word with
  | Some c => Val c
  | None => Err IndexError
  end.

(** [self.domains[var]] *)
Definition domain (self : CrosswordCreator) (var : Var.t) : E (gset string) :=
  match domains self !! var with
  | Some d => Val d
  | None => Err KeyError
  end.

(** ** Stable sorting by a key, as [sorted(..., key=...)] and [list.sort] *)

Section sorted.
Context {K A : Type} (le : K → K → Prop) `{!∀ a b, Decision (le a b)}.

Fixpoint insert_keyed (x : K * A) (l : list (K * A)) : list (K * A) :=
  match l with
  | [] => [x]
  | y :: l' =>
      if decide (le x.1 y.1) then x :: y :: l' else y :: insert_keyed x l'
  end.

Definition sort_keyed (l : list (K * A)) : list (K * A) :=
  foldr insert_keyed [] l.
End sorted.

(** The keys are computed for every element first, then the list is sorted. *)
Definition sorted {K A : Type} (le : K → K → Prop) `{!∀ a b, Decision (le a b)}
    (key : A → E K) (l : list A) : E (list A) :=
  keyed ← mapE (λ x, k ← key x; Val (k, x)) l;
  Val ((sort_keyed le keyed).*2).

(** ** [__init__] *)

Definition init (cw : Crossword) : CrosswordCreator :=
  {| crossword := cw;
     domains := gset_to_gmap (words cw) (variables cw);
     backtrack_calls := 0 |}.

(** ** [enforce_node_consistency] *)

Definition enforce_node_consistency (self : CrosswordCreator) : CrosswordCreator :=
  set_domains
    (map_imap (λ var ws,
       Some (filter (λ word, String.length word = Var.length var) ws))
       (domains self))
    self.

(** ** [revise] *)

(** [any(word[i] == other[j] for other in others)]: lazy, stops at the first
    match, and indexes [word] once per element examined. *)
Fixpoint any_match (word : string) (i : nat) (j : nat) (others : list string)
    : E bool :=
  match others with
  | [] => Val false
  | other :: rest =>
      a ← index word i;
      b ← index other j;
      if decide (a = b) then Val true else any_match word i j rest
  end.

(** The loop that collects [to_remove]; [self.domains[y]] is looked up once
    per word of [x]'s domain. *)
Fixpoint collect_to_remove (self : CrosswordCreator) (y : Var.t) (i j : nat)
    (ws : list string) (to_remove : gset string) : E (gset string) :=
  match ws with
  | [] => Val to_remove
  | word :: rest =>
      dy ← domain self y;
      b ← any_match word i j (elements dy);
      collect_to_remove self y i j rest
        (if (b : bool) then to_remove else to_remove ∪ {[word]})
  end.

(** The body of [revise] up to the test of [to_remove]: the domain of [x]
    as it was and the words found without support. *)
Definition unsupported (self : CrosswordCreator) (x y : Var.t) (i j : nat)
    : E (gset string * gset string) :=
  dx ← domain self x;
  to_remove ← collect_to_remove self y i j (elements dx) ∅;
  Val (dx, to_remove).

Definition revise (x y : Var.t) (self : CrosswordCreator) : result bool :=
  match overlaps_get (crossword self) x y with
  | None => Ok false self
  | Some (i, j) =>
      match unsupported self x y i j with
      | Err e => Raise e self
      | Val (dx, to_remove) =>
          if decide (to_remove = ∅) then Ok false self
          else Ok true (set_domains (<[x := dx ∖ to_remove]> (domains self)) self)
      end
  end.

(** ** [ac3] *)

Definition all_arcs (self : CrosswordCreator) : list (Var.t * Var.t) :=
  x ← (map_to_list (domains self)).*1;
  y ← elements (neighbors (crossword self) x);
  [(x, y)].

Fixpoint ac3_loop (fuel : nat) (queue : list (Var.t * Var.t))
    (self : CrosswordCreator) : result bool :=
  match queue with
  | [] => Ok true self
  | (x, y) :: queue' =>
      match fuel with
      | 0 => OutOfFuel self
      | S fuel' =>
          match revise x y self with
          | Ok true self' =>
              match domain self' x with
              | Err e => Raise e self'
              | Val dx =>
                  if decide (dx = ∅) then Ok false self'
                  else
                    ac3_loop fuel'
                      (queue' ++ ((λ z, (z, x)) <$>
                         elements (neighbors (crossword self') x ∖ {[y]})))
                      self'
              end
          | Ok false self' => ac3_loop fuel' queue' self'
          | Raise e s => Raise e s
          | OutOfFuel s => OutOfFuel s
          end
      end
  end.

Definition ac3 (fuel : nat) (arcs : option (list (Var.t * Var.t)))
    (self : CrosswordCreator) : result bool :=
  let arcs :=
    match arcs with
    | None => all_arcs self
    | Some arcs => arcs
    end in
  ac3_loop fuel arcs self.

(** ** Assignments and the consistency checker *)

Abbreviation Assignment := (gmap Var.t string).

Definition assignment_complete (self : CrosswordCreator) (assignment : Assignment)
    : bool :=
  bool_decide (dom assignment = variables (crossword self)).

(** The inner loop of [consistent] over the neighbours of [var]; [false]
    stands for the early [return False]. *)
Fixpoint consistent_neighbors (cw : Crossword) (assignment : Assignment)
    (var : Var.t) (word : string) (ns : list Var.t) : E bool :=
  match ns with
  | [] => Val true
  | neighbor :: ns' =>
      match assignment !! neighbor with
      | Some other =>
          match overlaps_get cw var neighbor with
          | Some (i, j) =>
              a ← index word i;
              b ← index other j;
              if decide (a ≠ b) then Val false
              else consistent_neighbors cw assignment var word ns'
          | None => consistent_neighbors cw assignment var word ns'
          end
      | None => consistent_neighbors cw assignment var word ns'
      end
  end.

(** The outer loop of [consistent] over the assigned variables. *)
Fixpoint consistent_vars (cw : Crossword) (assignment : Assignment)
    (items : list (Var.t * string)) : E bool :=
  match items with
  | [] => Val true
  | (var, word) :: items' =>
      if decide (String.length word ≠ Var.length var) then Val false
      else
        ok ← consistent_neighbors cw assignment var word
                (elements (neighbors cw var));
        if (ok : bool) then consistent_vars cw assignment items' else Val false
  end.

Definition consistent (self : CrosswordCreator) (assignment : Assignment)
    : E bool :=
  if decide (size (map_img assignment : gset string) < size assignment)
  then Val false
  else consistent_vars (crossword self) assignment (map_to_list assignment).

(** ** The ordering heuristics *)

(** The innermost loop of [count_conflicts], over the neighbour's domain. *)
Fixpoint count_in_domain (value : string) (i j : nat) (ws : list string)
    (count : nat) : E nat :=
  match ws with
  | [] => Val count
  | neighbor_word :: ws' =>
      a ← index value i;
      b ← index neighbor_word j;
      count_in_domain value i j ws' (if decide (a ≠ b) then S count else count)
  end.

Fixpoint count_over_neighbors (self : CrosswordCreator) (var : Var.t)
    (assignment : Assignment) (value : string) (ns : list Var.t) (count : nat)
    : E nat :=
  match ns with
  | [] => Val count
  | neighbor :: ns' =>
      match assignment !! neighbor with
      | None =>
          match overlaps_get (crossword self) var neighbor with
          | Some (i, j) =>
              d ← domain self neighbor;
              count' ← count_in_domain value i j (elements d) count;
              count_over_neighbors self var assignment value ns' count'
          | None => count_over_neighbors self var assignment value ns' count
          end
      | Some _ => count_over_neighbors self var assignment value ns' count
      end
  end.

Definition count_conflicts (self : CrosswordCreator) (var : Var.t)
    (assignment : Assignment) (value : string) : E nat :=
  count_over_neighbors self var assignment value
    (elements (neighbors (crossword self) var)) 0.

Definition order_domain_values (self : CrosswordCreator) (var : Var.t)
    (assignment : Assignment) : E (list string) :=
  d ← domain self var;
  sorted le (count_conflicts self var assignment) (elements d).

(** Python compares the key tuples [(len(domain), -degree)] lexicographically. *)
Definition tuple_le (p q : nat * Z) : Prop :=
  p.1 < q.1 ∨ (p.1 = q.1 ∧ (p.2 ≤ q.2)%Z).

#[global] Instance tuple_le_dec p q : Decision (tuple_le p q).
Proof. unfold tuple_le. apply _. Defined.

Definition select_key (self : CrosswordCreator) (var : Var.t) : E (nat * Z) :=
  d ← domain self var;
  Val (size d, (- Z.of_nat (size (neighbors (crossword self) var)))%Z).

Definition select_unassigned_variable (self : CrosswordCreator)
    (assignment : Assignment) : E (option Var.t) :=
  let unassigned :=
    filter (λ v, assignment !! v = None)
           (elements (variables (crossword self))) in
  unassigned ← sorted tuple_le (select_key self) unassigned;
  Val (head unassigned).

(** ** [backtrack] and [solve] *)

(** The [for value in ...] loop of [backtrack]; [rec] is the recursive call. *)
Fixpoint try_values
    (rec : Assignment → CrosswordCreator → result (option Assignment))
    (var : Var.t) (assignment : Assignment) (values : list string)
    (self : CrosswordCreator) : result (option Assignment) :=
  match values with
  | [] => Ok None self
  | value :: values' =>
      let new_assignment := <[var := value]> assignment in
      match consistent self new_assignment with
      | Err e => Raise e self
      | Val true =>
          match rec new_assignment self with
          | Ok None self' => try_values rec var assignment values' self'
          | r => r
          end
      | Val false => try_values rec var assignment values' self
      end
  end.

Fixpoint backtrack (fuel : nat) (assignment : Assignment)
    (self : CrosswordCreator) : result (option Assignment) :=
  match fuel with
  | 0 => OutOfFuel self
  | S fuel' =>
      let self := count_backtrack_call self in
      if assignment_complete self assignment then Ok (Some assignment) self
      else
        match select_unassigned_variable self assignment with
        | Err e => Raise e self
        | Val None => Raise KeyError self
        | Val (Some var) =>
            match order_domain_values self var assignment with
            | Err e => Raise e self
            | Val values =>
                try_values (backtrack fuel') var assignment values self
            end
        end
  end.

Definition solve (fuel : nat) (self : CrosswordCreator)
    : result (option Assignment) :=
  let self := enforce_node_consistency self in
  match ac3 fuel None self with
  | Ok _ self' => backtrack fuel ∅ self'
  | Raise e s => Raise e s
  | OutOfFuel s => OutOfFuel s
  end.

(** ** [letter_grid] *)

(** The grid of letters: a list of rows, [None] where no letter is set. *)
Abbreviation Grid := (list (list (option Ascii.ascii))).

(** The position a Python list index [i] denotes in a list of length [n]:
    a negative index counts from the end, an index outside the list
    raises [IndexError]. *)
Definition py_index (n : nat) (i : Z) : E nat :=
  if decide (0 ≤ i < Z.of_nat n)%Z then Val (Z.to_nat i)
  else if decide (- Z.of_nat n ≤ i < 0)%Z then Val (Z.to_nat (Z.of_nat n + i))
  else Err IndexError.

(** [letters[i][j] = c]: the row is fetched first, then its item is set. *)
Definition set_letter (letters : Grid) (i j : Z) (c : Ascii.ascii) : E Grid :=
  r ← py_index (length letters) i;
  match letters !! r with
  | None => Err IndexError
  | Some row =>
      q ← py_index (length row) j;
      Val (<[r := <[q := Some c]> row]> letters)
  end.

(** The loop [for k in range(len(word))], from index [k] on; [cs] holds the
    letters [word[k:]]. *)
Fixpoint write_letters (variable : Var.t) (cs : list Ascii.ascii) (k : nat)
    (letters : Grid) : E Grid :=
  match cs with
  | [] => Val letters
  | c :: cs' =>
      let i := (Var.i variable +
                (if decide (Var.direction variable = Var.DOWN)
                 then Z.of_nat k else 0))%Z in
      let j := (Var.j variable +
                (if decide (Var.direction variable = Var.ACROSS)
                 then Z.of_nat k else 0))%Z in
      letters' ← set_letter letters i j c;
      write_letters variable cs' (S k) letters'
  end.

(** The loop [for variable, word in assignment.items()]. *)
Fixpoint write_words (items : list (Var.t * string)) (letters : Grid)
    : E Grid :=
  match items with
  | [] => Val letters
  | (variable, word) :: items' =>
      letters' ← write_letters variable (String.list_ascii_of_string word) 0 letters;
      write_words items' letters'
  end.

(** [letter_grid]; [height] and [width] are [self.crossword.height] and
    [self.crossword.width], fields of the missing [crossword.py]. *)
Definition letter_grid (height width : Z) (assignment : Assignment) : E Grid :=
  write_words (map_to_list assignment)
    (replicate (Z.to_nat height) (replicate (Z.to_nat width) None)).

(** ** Example puzzles *)

Module Examples.
(** Scenario B of the spec: a 3-letter across slot whose middle letter is
    the first letter of a 3-letter down slot. *)
Definition across : Var.t := Var.mk 0 0 Var.ACROSS 3.
Definition down : Var.t := Var.mk 0 1 Var.DOWN 3.

Definition puzzle_B : Crossword :=
  {| variables := {[ across; down ]};
     words := {[ "CAT"; "ACE"; "TIE" ]}%string;
     overlaps := {[ (across, down) := Some (1, 0);
                    (down, across) := Some (0, 1) ]} |}.

(** Scenario D: the first letter of the across slot is the second letter
    of the down slot, and no two words of the list agree there. *)
Definition across2 : Var.t := Var.mk 1 0 Var.ACROSS 2.
Definition down2 : Var.t := Var.mk 0 0 Var.DOWN 2.

Definition puzzle_D : Crossword :=
  {| variables := {[ across2; down2 ]};
     words := {[ "AB"; "CD" ]}%string;
     overlaps := {[ (across2, down2) := Some (0, 1);
                    (down2, across2) := Some (1, 0) ]} |}.
End Examples.
Import Examples.


(** ** Vocabulary of the specification *)

(** [w[i] == w'[j]], both indices being in range. *)
Definition agree (w : string) (i : nat) (w' : string) (j : nat) : Prop :=
  ∃ c, String.get i w = Some c ∧ String.get j w' = Some c.

#[global] Instance agree_dec w i w' j : Decision (agree w i w' j).
Proof.
  unfold agree.
  destruct (String.get i w) as [a|], (String.get j w') as [b|];
    try (right; by intros (? & ? & ?)).
  destruct (decide (a = b)) as [->|Hne].
  - left. by exists b.
  - right. intros (? & ? & ?). congruence.
Defined.

(** [word] has a partner in [dy]: some word of [dy] carries at index [j]
    the letter that [word] carries at index [i]. *)
Definition supported (dy : gset string) (i j : nat) (word : string) : Prop :=
  set_Exists (λ other, agree word i other j) dy.

#[global] Instance supported_dec dy i j word : Decision (supported dy i j word).
Proof. unfold supported. apply _. Defined.

(** The same over the list that [any] walks through. *)
Definition supported_in (others : list string) (i j : nat) (word : string) : Prop :=
  ∃ other, other ∈ others ∧ agree word i other j.

(** The three ways [revise] can end. *)
Inductive revise_spec (x y : Var.t) (self : CrosswordCreator) : result bool → Prop :=
  | revise_raises e :
      revise_spec x y self (Raise e self)
  | revise_unchanged :
      (∀ i j dx dy, overlaps_get (crossword self) x y = Some (i, j) →
         domains self !! x = Some dx → domains self !! y = Some dy →
         ∀ w, w ∈ dx → supported dy i j w) →
      revise_spec x y self (Ok false self)
  | revise_pruned i j dx dx' :
      overlaps_get (crossword self) x y = Some (i, j) →
      domains self !! x = Some dx →
      dx' ⊂ dx →
      (∀ dy, domains self !! y = Some dy →
         ∀ w, w ∈ dx' ↔ w ∈ dx ∧ supported dy i j w) →
      is_Some (domains self !! y) →
      revise_spec x y self
        (Ok true (set_domains (<[x := dx']> (domains self)) self)).

(** No variable gains a word or a domain between [before] and [after]. *)
Definition never_grows (before after : CrosswordCreator) : Prop :=
  dom (domains after) = dom (domains before) ∧
  ∀ var d', domains after !! var = Some d' →
    ∃ d, domains before !! var = Some d ∧ d' ⊆ d.

(** The number of words left in the store, all variables together. *)
Definition total_size (d : gmap Var.t (gset string)) : nat :=
  map_fold (λ _ ws n, size ws + n) 0 d.

(** A bound on the number of arcs one successful revision can enqueue. *)
Definition max_degree (cw : Crossword) (X : gset Var.t) : nat :=
  max_list ((λ x, size (neighbors cw x)) <$> elements X).

(** Every word of [x]'s domain has a partner in [y]'s domain. *)
Definition arc_consistent (self : CrosswordCreator) (x y : Var.t) : Prop :=
  ∀ i j dx dy,
    overlaps_get (crossword self) x y = Some (i, j) →
    domains self !! x = Some dx → domains self !! y = Some dy →
    ∀ w, w ∈ dx → supported dy i j w.

(** Arcs that are not waiting in the queue are consistent. *)
Definition pending_or_consistent (queue : list (Var.t * Var.t))
    (self : CrosswordCreator) : Prop :=
  ∀ x y, x ∈ dom (domains self) → y ∈ neighbors (crossword self) x →
    (x, y) ∈ queue ∨ arc_consistent self x y.

(** The head of a list carries a least key. *)
Definition head_least {K A : Type} (le : K → K → Prop) (l : list (K * A))
    : Prop :=
  ∀ x, head l = Some x → ∀ y, y ∈ l → le x.1 y.1.

(** The three conditions [consistent] tests: the words are pairwise
    distinct, each has the length of its variable, and two assigned
    neighbours agree where they cross. *)
Definition valid (cw : Crossword) (assignment : Assignment) : Prop :=
  (∀ x y w, assignment !! x = Some w → assignment !! y = Some w → x = y) ∧
  (∀ x w, assignment !! x = Some w → String.length w = Var.length x) ∧
  (∀ x y i j wx wy,
     assignment !! x = Some wx → assignment !! y = Some wy →
     y ∈ neighbors cw x → overlaps_get cw x y = Some (i, j) →
     agree wx i wy j).

(** The search reads the puzzle and the domains and changes neither. *)
Definition only_counts (s s' : CrosswordCreator) : Prop :=
  crossword s' = crossword s ∧ domains s' = domains s.

(** The states the search runs in: this puzzle with these domains. *)
Definition at_puzzle (cw : Crossword) (d : gmap Var.t (gset string))
    (s : CrosswordCreator) : Prop :=
  crossword s = cw ∧ domains s = d.

(** A partial assignment over the puzzle's variables with words of the
    right lengths, as the search builds them. *)
Definition partial (cw : Crossword) (a : Assignment) : Prop :=
  dom a ⊆ variables cw ∧
  ∀ x w, a !! x = Some w → String.length w = Var.length x.

(** A complete valid assignment drawn from the domains. *)
Definition solution (cw : Crossword) (d : gmap Var.t (gset string))
    (sol : Assignment) : Prop :=
  dom sol = variables cw ∧ valid cw sol ∧
  ∀ v w, sol !! v = Some w → ∃ ws, d !! v = Some ws ∧ w ∈ ws.

(** Every word in a domain has the length of its variable. *)
Definition node_consistent (s : CrosswordCreator) : Prop :=
  ∀ v ws w, domains s !! v = Some ws → w ∈ ws →
    String.length w = Var.length v.

(** Every word of the assignment [sol] is in the domain of its variable. *)
Definition within_domains (sol : Assignment) (s : CrosswordCreator) : Prop :=
  ∀ v w, sol !! v = Some w → ∃ ws, domains s !! v = Some ws ∧ w ∈ ws.

(** The constraints of the puzzle on an assignment: distinct words, of
    the lengths of their variables, that agree wherever two variables
    overlap. *)
Definition satisfies (cw : Crossword) (a : Assignment) : Prop :=
  (∀ x y w, a !! x = Some w → a !! y = Some w → x = y) ∧
  (∀ x w, a !! x = Some w → String.length w = Var.length x) ∧
  (∀ x y i j wx wy,
     a !! x = Some wx → a !! y = Some wy →
     overlaps_get cw x y = Some (i, j) →
     ∃ c, String.get i wx = Some c ∧ String.get j wy = Some c).

(** The specified short-circuit of [solve]: once [ac3] has reported an
    emptied domain, [solve] returns [None] and [backtrack] has not been
    entered. *)
Definition short_circuits (fuel : nat) (self : CrosswordCreator) : Prop :=
  ∀ s2, ac3 fuel None (enforce_node_consistency self) = Ok false s2 →
    ∃ s', solve fuel self = Ok None s' ∧
      backtrack_calls s' = backtrack_calls self.

(** The number of words of [ws] that differ from [value] at the overlap. *)
Definition conflicts_in (value : string) (i j : nat) (ws : list string) : nat :=
  length (filter (λ w, ¬ agree value i w j) ws).

(** What one neighbour adds to the count of [count_conflicts]: nothing if
    it is assigned or does not overlap [var], else the number of words of
    its domain that differ from [value] at the overlap. *)
Definition neighbor_conflicts (self : CrosswordCreator) (var : Var.t)
    (assignment : Assignment) (value : string) (neighbor : Var.t) : nat :=
  match assignment !! neighbor with
  | Some _ => 0
  | None =>
      match overlaps_get (crossword self) var neighbor with
      | None => 0
      | Some (i, j) =>
          match domains self !! neighbor with
          | Some d => conflicts_in value i j (elements d)
          | None => 0
          end
      end
  end.

(** The cell of the grid that holds letter [k] of a variable's word. *)
Definition cell_of (variable : Var.t) (k : nat) : Z * Z :=
  ((Var.i variable +
    (if decide (Var.direction variable = Var.DOWN) then Z.of_nat k else 0))%Z,
   (Var.j variable +
    (if decide (Var.direction variable = Var.ACROSS) then Z.of_nat k else 0))%Z).

(** [letters[i][j]] for indices inside the grid. *)
Definition letter_at (letters : Grid) (i j : nat) : option (option Ascii.ascii) :=
  letters !! i ≫= (λ row, row !! j).

(** The writes a list of items causes, in the order of the two loops. *)
Fixpoint writes_from (variable : Var.t) (cs : list Ascii.ascii) (k : nat)
    : list (Z * Z * Ascii.ascii) :=
  match cs with
  | [] => []
  | c :: cs' => (cell_of variable k, c) :: writes_from variable cs' (S k)
  end.

Definition writes_of (items : list (Var.t * string))
    : list (Z * Z * Ascii.ascii) :=
  item ← items; writes_from item.1 (String.list_ascii_of_string item.2) 0.

(** Carrying out a list of writes, one [letters[i][j] = c] at a time. *)
Fixpoint apply_writes (ws : list (Z * Z * Ascii.ascii)) (letters : Grid)
    : E Grid :=
  match ws with
  | [] => Val letters
  | (i, j, c) :: ws' => letters' ← set_letter letters i j c; apply_writes ws' letters'
  end.

(** A grid of [h] rows of [w] cells each. *)
Definition has_shape (h w : nat) (letters : Grid) : Prop :=
  length letters = h ∧ Forall (λ row, length row = w) letters.

(** * Properties *)

(** ** Evaluation and indexing *)

Lemma bind_Val {A B} (m : E A) (f : A → E B) b :
  m ≫= f = Val b ↔ ∃ a, m = Val a ∧ f a = Val b.
Proof.
  destruct m as [a|e]; simpl; split.
  - eauto.
  - by intros (a' & [= <-] & ?).
  - done.
  - by intros (? & ? & ?).
Qed.

Lemma get_is_Some (w : string) (i : nat) :
  is_Some (String.get i w) ↔ i < String.length w.
Proof.
  revert i. induction w as [|c w IH]; intros [|i]; simpl.
  - split; [by intros [? ?] | lia].
  - split; [by intros [? ?] | lia].
  - split; [lia | eauto].
  - rewrite IH. lia.
Qed.

Lemma index_Val word i c : index word i = Val c ↔ String.get i word = Some c.
Proof. unfold index. destruct (String.get i word); naive_solver. Qed.

Lemma index_in_range word i :
  i < String.length word → ∃ c, index word i = Val c.
Proof.
  intros [c Hc]%get_is_Some. exists c. by apply index_Val.
Qed.

Lemma domain_Val self var d : domain self var = Val d ↔ domains self !! var = Some d.
Proof. unfold domain. destruct (domains self !! var); naive_solver. Qed.

(** ** Node consistency *)

Lemma lookup_enforce_node_consistency self v :
  domains (enforce_node_consistency self) !! v =
  filter (λ word, String.length word = Var.length v) <$> domains self !! v.
Proof.
  unfold enforce_node_consistency. simpl.
  rewrite map_lookup_imap. by destruct (domains self !! v).
Qed.

(** ** Support of a word and [revise] *)

Lemma any_match_Val word i j others b :
  any_match word i j others = Val b →
  (b = true ↔ supported_in others i j word).
Proof.
  revert b. induction others as [|other rest IH]; simpl; intros b.
  - intros [= <-]. split; [done|]. intros (? & []%elem_of_nil & _).
  - intros (a & Ha%index_Val & (c & Hc%index_Val & Hb)%bind_Val)%bind_Val.
    destruct (decide (a = c)) as [->|Hne].
    + injection Hb as <-. split; [|done]. intros _.
      exists other. split; [left|by exists c].
    + rewrite (IH _ Hb). split.
      * intros (o & ? & ?). exists o. split; [by right|done].
      * intros (o & [-> | ?]%elem_of_cons & Hag);
          [destruct Hag as (k & ? & ?); congruence|].
        by exists o.
Qed.

Lemma any_match_total word i j others :
  i < String.length word →
  (∀ other, other ∈ others → j < String.length other) →
  ∃ b, any_match word i j others = Val b.
Proof.
  intros [a Ha]%index_in_range. induction others as [|other rest IH]; intros Hj.
  - by exists false.
  - simpl. rewrite Ha. simpl.
    destruct (index_in_range other j) as [b Hb]; [apply Hj; left|].
    rewrite Hb. simpl. destruct (decide (a = b)); [by eexists|].
    apply IH. intros ??. apply Hj. by right.
Qed.

(** What the collecting loop returns when it does not raise. *)
Lemma collect_to_remove_Val self y i j ws acc r :
  collect_to_remove self y i j ws acc = Val r →
  (ws = [] ∧ r = acc) ∨ ∃ dy, domains self !! y = Some dy ∧
    ∀ w, w ∈ r ↔ w ∈ acc ∨ (w ∈ ws ∧ ¬ supported dy i j w).
Proof.
  revert acc r. induction ws as [|word rest IH]; simpl; intros acc r; [intros [= <-]; by left|].
  intros (dy & Hdy%domain_Val & (b & Hb & Hr)%bind_Val)%bind_Val. right.
  exists dy. split; [done|].
  apply any_match_Val in Hb.
  assert (supported_in (elements dy) i j word ↔ supported dy i j word) as Hs.
  { unfold supported_in, supported, set_Exists. by setoid_rewrite elem_of_elements. }
  rewrite Hs in Hb. clear Hs.
  assert (∀ w, w ∈ (if b then acc else acc ∪ {[word]}) ↔
               w ∈ acc ∨ (w = word ∧ ¬ supported dy i j w)) as Hacc.
  { intros w. destruct b.
    - split; [by left|]. intros [? | (-> & Hn)]; [done|]. destruct Hn. by apply Hb.
    - rewrite elem_of_union, elem_of_singleton. split; [|tauto].
      intros [? | ->]; [by left|]. right. split; [done|].
      intros Hsup. by apply Hb in Hsup. }
  destruct (IH _ _ Hr) as [[-> ->] | (dy' & Hdy' & Hw)].
  - intros w. rewrite Hacc, elem_of_cons. set_solver.
  - assert (dy' = dy) as -> by congruence.
    intros w. rewrite Hw, Hacc, elem_of_cons. naive_solver.
Qed.

Lemma collect_to_remove_total self y dy i j ws acc :
  domains self !! y = Some dy →
  (∀ w, w ∈ ws → i < String.length w) →
  (∀ w', w' ∈ dy → j < String.length w') →
  ∃ r, collect_to_remove self y i j ws acc = Val r.
Proof.
  intros Hdy Hi Hj. revert acc. induction ws as [|word rest IH]; intros acc.
  - by eexists.
  - simpl. apply domain_Val in Hdy as Hd. rewrite Hd. simpl.
    destruct (any_match_total word i j (elements dy)) as [b Hb].
    { apply Hi. left. }
    { intros ? ?%elem_of_elements. by apply Hj. }
    rewrite Hb. simpl. apply IH. intros ??. apply Hi. by right.
Qed.

Lemma revise_cases x y self : revise_spec x y self (revise x y self).
Proof.
  unfold revise.
  destruct (overlaps_get (crossword self) x y) as [[i j]|] eqn:Hov.
  2:{ apply revise_unchanged. intros. congruence. }
  destruct (unsupported self x y i j) as [[dx to_remove]|e] eqn:Hun;
    [|apply revise_raises].
  unfold unsupported in Hun.
  apply bind_Val in Hun as (dx0 & Hdx%domain_Val & (r & Hr & [= -> ->])%bind_Val).
  apply collect_to_remove_Val in Hr.
  destruct (decide (to_remove = ∅)) as [->|Hne].
  - apply revise_unchanged. intros i' j' dx' dy Hov' Hdx' Hdy w Hw.
    assert (i' = i ∧ j' = j ∧ dx' = dx) as (-> & -> & ->) by naive_solver.
    destruct Hr as [[Hnil _]|(dy' & Hdy' & Hr)].
    + apply elem_of_elements in Hw. rewrite Hnil in Hw. by apply elem_of_nil in Hw.
    + assert (dy' = dy) as -> by congruence.
      destruct (decide (w ∈ (∅ : gset string))) as [[]%not_elem_of_empty|_].
      specialize (Hr w). rewrite elem_of_elements in Hr.
      apply dec_stable. intros Hns. apply (not_elem_of_empty (C:=gset string) w).
      apply Hr. right. done.
  - destruct Hr as [[_ ?]|(dy & Hdy & Hr)]; [done|].
    apply (revise_pruned x y self i j dx (dx ∖ to_remove)); [done|done| | |by eexists].
    + apply set_choose_L in Hne as [w Hw].
      split; [intros ? [? _]%elem_of_difference; done|].
      intros Hsub. apply Hr in Hw as Hw'.
      destruct Hw' as [[]%not_elem_of_empty|[Hw' _]].
      apply elem_of_elements, Hsub, elem_of_difference in Hw' as [_ []]. done.
    + intros dy' Hdy' w. assert (dy' = dy) as -> by congruence.
      rewrite elem_of_difference, Hr, elem_of_elements.
      split.
      * intros [Hw Hn]. split; [done|]. apply dec_stable. tauto.
      * intros [Hw Hs]. split; [done|].
        intros [[]%not_elem_of_empty|[_ ?]]. done.
Qed.

Lemma revise_total self x y i j dx dy :
  overlaps_get (crossword self) x y = Some (i, j) →
  domains self !! x = Some dx →
  domains self !! y = Some dy →
  (∀ w, w ∈ dx → i < String.length w) →
  (∀ w', w' ∈ dy → j < String.length w') →
  ∃ b self', revise x y self = Ok b self'.
Proof.
  intros Hov Hdx Hdy Hi Hj. unfold revise, unsupported. rewrite Hov.
  apply domain_Val in Hdx as ->. simpl.
  destruct (collect_to_remove_total self y dy i j (elements dx) ∅) as [r ->];
    [done| |done|].
  { intros w ?%elem_of_elements. by apply Hi. }
  simpl. destruct (decide (r = ∅)); by eexists _, _.
Qed.

(** ** Domains only shrink *)

Lemma never_grows_refl self : never_grows self self.
Proof. split; [done|]. intros var d' ?. by exists d'. Qed.

Lemma never_grows_trans s1 s2 s3 :
  never_grows s1 s2 → never_grows s2 s3 → never_grows s1 s3.
Proof.
  intros [Hd12 H12] [Hd23 H23]. split; [congruence|].
  intros var d3 (d2 & (d1 & ? & ?)%H12 & ?)%H23.
  exists d1. split; [done|]. by transitivity d2.
Qed.

Lemma never_grows_insert self x dx dx' :
  domains self !! x = Some dx → dx' ⊆ dx →
  never_grows self (set_domains (<[x := dx']> (domains self)) self).
Proof.
  intros Hdx Hsub. split; simpl.
  - rewrite dom_insert_L. apply elem_of_dom_2 in Hdx. set_solver.
  - intros var d'. destruct (decide (x = var)) as [<-|Hne].
    + rewrite lookup_insert_eq. intros [= <-]. by exists dx.
    + rewrite lookup_insert_ne by done. intros ?. by exists d'.
Qed.

Lemma revise_never_grows x y self :
  never_grows self (final_state (revise x y self)).
Proof.
  destruct (revise_cases x y self) as [e|?|i j dx dx' ? ? [? _] ? ?]; simpl.
  - apply never_grows_refl.
  - apply never_grows_refl.
  - by apply never_grows_insert with dx.
Qed.

Lemma revise_crossword x y self :
  crossword (final_state (revise x y self)) = crossword self.
Proof. by destruct (revise_cases x y self). Qed.

Lemma revise_backtrack_calls x y self :
  backtrack_calls (final_state (revise x y self)) = backtrack_calls self.
Proof. by destruct (revise_cases x y self). Qed.

Lemma enforce_node_consistency_never_grows self :
  never_grows self (enforce_node_consistency self).
Proof.
  split.
  - apply set_eq. intros v. rewrite !elem_of_dom, lookup_enforce_node_consistency.
    by rewrite fmap_is_Some.
  - intros var d'. rewrite lookup_enforce_node_consistency.
    destruct (domains self !! var) as [d|]; [|done].
    intros [= <-]. exists d. split; [done|].
    intros w [_ ?]%elem_of_filter. done.
Qed.

Lemma ac3_loop_never_grows fuel queue self :
  never_grows self (final_state (ac3_loop fuel queue self)).
Proof.
  revert queue self. induction fuel as [|fuel IH]; intros [|[x y] queue] self;
    simpl; try apply never_grows_refl.
  pose proof (revise_never_grows x y self) as Hrev.
  destruct (revise x y self) as [[] self'| |]; simpl in *; try done.
  - destruct (domain self' x) as [dx|]; simpl; [|done].
    destruct (decide (dx = ∅)); simpl; [done|].
    eapply never_grows_trans; [exact Hrev|apply IH].
  - eapply never_grows_trans; [exact Hrev|apply IH].
Qed.

Lemma ac3_loop_crossword fuel queue self :
  crossword (final_state (ac3_loop fuel queue self)) = crossword self.
Proof.
  revert queue self. induction fuel as [|fuel IH]; intros [|[x y] queue] self;
    simpl; try done.
  pose proof (revise_crossword x y self) as Hrev.
  destruct (revise x y self) as [[] self'| |]; simpl in *; try done.
  - destruct (domain self' x) as [dx|]; simpl; [|done].
    destruct (decide (dx = ∅)); simpl; [done|]. by rewrite IH.
  - by rewrite IH.
Qed.

Lemma ac3_loop_backtrack_calls fuel queue self :
  backtrack_calls (final_state (ac3_loop fuel queue self)) = backtrack_calls self.
Proof.
  revert queue self. induction fuel as [|fuel IH]; intros [|[x y] queue] self;
    simpl; try done.
  pose proof (revise_backtrack_calls x y self) as Hrev.
  destruct (revise x y self) as [[] self'| |]; simpl in *; try done.
  - destruct (domain self' x) as [dx|]; simpl; [|done].
    destruct (decide (dx = ∅)); simpl; [done|]. by rewrite IH.
  - by rewrite IH.
Qed.

(** ** Termination of the worklist loop *)

Lemma total_size_lookup d x dx :
  d !! x = Some dx → total_size d = size dx + total_size (delete x d).
Proof.
  intros Hx. unfold total_size.
  apply (map_fold_delete_L (λ _ (ws : gset string) (n : nat), size ws + n));
    [intros; lia|done].
Qed.

Lemma total_size_insert d x dx dx' :
  d !! x = Some dx → dx' ⊂ dx → total_size (<[x := dx']> d) < total_size d.
Proof.
  intros Hx Hsub. rewrite (total_size_lookup d x dx) by done.
  rewrite (total_size_lookup (<[x := dx']> d) x dx') by apply lookup_insert_eq.
  rewrite delete_insert_eq. apply subset_size in Hsub. lia.
Qed.

Lemma max_degree_ge cw (X : gset Var.t) x :
  x ∈ X → size (neighbors cw x) ≤ max_degree cw X.
Proof.
  intros Hx. apply max_list_elem_of_le, list_elem_of_fmap.
  exists x. by rewrite elem_of_elements.
Qed.

Lemma ac3_loop_enough_fuel fuel queue self :
  length queue +
    max_degree (crossword self) (dom (domains self)) * total_size (domains self)
    ≤ fuel →
  ∀ s, ac3_loop fuel queue self ≠ OutOfFuel s.
Proof.
  revert queue self. induction fuel as [|fuel IH]; intros [|[x y] queue] self;
    simpl; intros Hfuel s; try done; try lia.
  destruct (revise_cases x y self) as [e| |i j dx dx' Hov Hdx Hsub _ _]; [done| |].
  - apply IH. lia.
  - unfold domain. simpl. rewrite lookup_insert_eq.
    destruct (decide (dx' = ∅)); [done|].
    apply IH. simpl.
    assert (dom (<[x := dx']> (domains self)) = dom (domains self)) as ->.
    { rewrite dom_insert_L. apply elem_of_dom_2 in Hdx. set_solver. }
    pose proof (total_size_insert _ _ _ _ Hdx Hsub) as Hlt.
    pose proof (max_degree_ge (crossword self) (dom (domains self)) x) as Hdeg.
    rewrite length_app, length_fmap.
    assert (length (elements (neighbors (crossword self) x ∖ {[y]}))
            ≤ size (neighbors (crossword self) x)) as Hle.
    { apply (subseteq_size (neighbors (crossword self) x ∖ {[y]})). set_solver. }
    specialize (Hdeg (elem_of_dom_2 _ _ _ Hdx)).
    nia.
Qed.

(** ** Consequences of a well-formed overlap relation *)

Lemma overlaps_get_Some cw x y ij :
  overlaps_get cw x y = Some ij ↔ overlaps cw !! (x, y) = Some (Some ij).
Proof.
  unfold overlaps_get. destruct (overlaps cw !! (x, y)) as [[?|]|]; naive_solver.
Qed.

Lemma well_formed_overlap cw x y i j :
  well_formed cw → overlaps_get cw x y = Some (i, j) →
  x ∈ variables cw ∧ y ∈ variables cw ∧ x ≠ y ∧
  overlaps_get cw y x = Some (j, i) ∧ i < Var.length x ∧ j < Var.length y.
Proof.
  intros Hwf Hov%overlaps_get_Some. apply Hwf in Hov. simpl in Hov.
  rewrite overlaps_get_Some. tauto.
Qed.

Lemma elem_of_neighbors cw x y :
  y ∈ neighbors cw x ↔
  y ∈ variables cw ∧ y ≠ x ∧ is_Some (overlaps_get cw y x).
Proof. unfold neighbors. rewrite elem_of_filter. tauto. Qed.

Lemma neighbors_symmetric cw x y :
  well_formed cw → x ∈ neighbors cw y → y ∈ neighbors cw x.
Proof.
  intros Hwf (_ & _ & [[i j] Hov])%elem_of_neighbors.
  destruct (well_formed_overlap _ _ _ _ _ Hwf Hov) as (_ & ? & ? & ? & _).
  apply elem_of_neighbors. eauto.
Qed.

Lemma agree_sym w i w' j : agree w i w' j → agree w' j w i.
Proof. intros (c & ? & ?). by exists c. Qed.

Lemma elem_of_all_arcs self x y :
  (x, y) ∈ all_arcs self ↔
  x ∈ dom (domains self) ∧ y ∈ neighbors (crossword self) x.
Proof.
  unfold all_arcs. rewrite list_elem_of_bind. split.
  - intros (x' & (y' & Hxy & Hy)%list_elem_of_bind & Hx).
    apply list_elem_of_singleton in Hxy as [= <- <-].
    apply elem_of_elements in Hy. split; [|done].
    apply list_elem_of_fmap in Hx as ([x1 d] & -> & Hx%elem_of_map_to_list).
    by apply elem_of_dom_2 in Hx.
  - intros [[d Hd]%elem_of_dom Hy]. exists x. split.
    + apply list_elem_of_bind. exists y.
      split; [apply list_elem_of_singleton; done|by apply elem_of_elements].
    + apply list_elem_of_fmap. exists (x, d). by rewrite elem_of_map_to_list.
Qed.

(** ** An invariant rule for the worklist loop

    [I queue self] is kept by an iteration that leaves the domains alone
    and by one that prunes; then it holds of the state in which the loop
    stops, with the empty queue when the loop reports success. *)

Section loop_invariant.
Context (I : list (Var.t * Var.t) → CrosswordCreator → Prop).

Hypothesis keep_unchanged : ∀ x y queue self,
  I ((x, y) :: queue) self →
  (∀ i j dx dy, overlaps_get (crossword self) x y = Some (i, j) →
     domains self !! x = Some dx → domains self !! y = Some dy →
     ∀ w, w ∈ dx → supported dy i j w) →
  I queue self.

Hypothesis keep_pruned : ∀ x y queue self i j dx dy dx',
  I ((x, y) :: queue) self →
  overlaps_get (crossword self) x y = Some (i, j) →
  domains self !! x = Some dx →
  domains self !! y = Some dy →
  dx' ⊂ dx →
  (∀ w, w ∈ dx' ↔ w ∈ dx ∧ supported dy i j w) →
  I (queue ++ ((λ z, (z, x)) <$>
                 elements (neighbors (crossword self) x ∖ {[y]})))
    (set_domains (<[x := dx']> (domains self)) self).

Lemma ac3_loop_invariant fuel queue self :
  I queue self →
  match ac3_loop fuel queue self with
  | Ok true self' => I [] self'
  | r => ∃ queue', I queue' (final_state r)
  end.
Proof.
  revert queue self. induction fuel as [|fuel IH]; intros queue self HI.
  { destruct queue as [|[x y] queue]; simpl; eauto. }
  destruct queue as [|[x y] queue]; simpl; [done|].
  destruct (revise_cases x y self)
    as [e|Hsup|i j dx dx' Hov Hdx Hsub Hdx' [dy Hdy]].
  - simpl. eauto.
  - apply IH. by apply keep_unchanged with x y.
  - unfold domain. simpl. rewrite lookup_insert_eq.
    specialize (keep_pruned x y queue self i j dx dy dx' HI Hov Hdx Hdy Hsub
                  (Hdx' dy Hdy)).
    destruct (decide (dx' = ∅)); simpl; [eauto|by apply IH].
Qed.
End loop_invariant.

(** ** Arc consistency after [ac3] *)

Lemma pending_or_consistent_unchanged x y queue self :
  pending_or_consistent ((x, y) :: queue) self →
  arc_consistent self x y →
  pending_or_consistent queue self.
Proof.
  intros HI Hxy a b Ha Hb.
  destruct (HI a b Ha Hb) as [[[= -> ->]|?]%elem_of_cons|?]; auto.
Qed.

Lemma pending_or_consistent_pruned x y queue self i j dx dy dx' :
  well_formed (crossword self) →
  pending_or_consistent ((x, y) :: queue) self →
  overlaps_get (crossword self) x y = Some (i, j) →
  domains self !! x = Some dx →
  domains self !! y = Some dy →
  (∀ w, w ∈ dx' ↔ w ∈ dx ∧ supported dy i j w) →
  pending_or_consistent
    (queue ++ ((λ z, (z, x)) <$> elements (neighbors (crossword self) x ∖ {[y]})))
    (set_domains (<[x := dx']> (domains self)) self).
Proof.
  intros Hwf HI Hov Hdx Hdy Hdx' a b Ha Hb. simpl in *.
  destruct (well_formed_overlap _ _ _ _ _ Hwf Hov) as (_ & _ & Hxy & Hyx & _).
  assert (a ∈ dom (domains self)) as Ha'.
  { rewrite dom_insert_L in Ha. apply elem_of_dom_2 in Hdx. set_solver. }
  assert (b ≠ a) as Hba by (apply elem_of_neighbors in Hb; tauto).
  destruct (decide (b = x)) as [->|Hbx].
  - (* an arc into [x] *)
    destruct (decide (a = y)) as [->|Hay].
    + destruct (HI y x Ha' Hb) as [Hq|Hcons].
      * apply elem_of_cons in Hq as [[= ? ?]|Hq]; [done|].
        left. apply elem_of_app. by left.
      * right. intros i0 j0 dy0 dx0 Hov0. simpl.
        rewrite lookup_insert_ne, lookup_insert_eq by done.
        intros ? [= <-] w' Hw'.
        assert (i0 = j ∧ j0 = i ∧ dy0 = dy) as (-> & -> & ->) by naive_solver.
        destruct (Hcons j i dy dx Hyx Hdy Hdx w' Hw') as (w & Hw & Hag).
        exists w. split; [|done]. apply Hdx'. split; [done|].
        exists w'. split; [done|by apply agree_sym].
    + left. apply elem_of_app. right. apply list_elem_of_fmap. exists a.
      split; [done|]. apply elem_of_elements, elem_of_difference.
      split; [by apply neighbors_symmetric|].
      by rewrite elem_of_singleton.
  - destruct (HI a b Ha' Hb) as [Hq|Hcons].
    + apply elem_of_cons in Hq as [[= -> ->]|Hq].
      * right. intros i0 j0 dx0 dy0 Hov0. simpl.
        rewrite lookup_insert_eq, lookup_insert_ne by done.
        intros [= <-] ? w Hw.
        assert (i0 = i ∧ j0 = j ∧ dy0 = dy) as (-> & -> & ->) by naive_solver.
        by apply Hdx'.
      * left. apply elem_of_app. by left.
    + right. intros i0 j0 da db Hov0. simpl.
      rewrite (lookup_insert_ne _ x b) by done.
      destruct (decide (a = x)) as [->|Hax].
      * rewrite lookup_insert_eq. intros [= <-] Hdb w [Hw _]%Hdx'.
        by apply (Hcons i0 j0 dx db).
      * rewrite lookup_insert_ne by done. apply Hcons. done.
Qed.

Lemma well_formed_puzzle_B : well_formed puzzle_B.
Proof. apply (bool_decide_unpack _). vm_compute. reflexivity. Qed.

(** C4 (arc-consistency postcondition).  When [ac3], started on the default
    arc set, returns [True], every word left in the domain of a variable
    [x] has, for each neighbour [y] of [x] with overlap [(i, j)], a word in
    the domain of [y] whose [j]-th letter is the word's [i]-th letter. *)
Theorem ac3_arc_consistent fuel self self' :
  well_formed (crossword self) →
  ac3 fuel None self = Ok true self' →
  ∀ x y i j dx dy,
    y ∈ neighbors (crossword self') x →
    overlaps_get (crossword self') x y = Some (i, j) →
    domains self' !! x = Some dx →
    domains self' !! y = Some dy →
    ∀ w, w ∈ dx →
      ∃ w' c, w' ∈ dy ∧ String.get i w = Some c ∧ String.get j w' = Some c.
Proof.
  intros Hwf Hac3.
  set (I := λ queue s,
         crossword s = crossword self ∧ pending_or_consistent queue s).
  assert (match ac3_loop fuel (all_arcs self) self with
          | Ok true s' => I [] s'
          | r => ∃ queue', I queue' (final_state r)
          end) as Hinv.
  { apply ac3_loop_invariant.
    - intros x y queue s [Hcw HI] Hsup. split; [done|].
      by apply pending_or_consistent_unchanged with x y.
    - intros x y queue s i j dx dy dx' [Hcw HI] Hov Hdx Hdy _ Hdx'.
      split; [done|].
      apply pending_or_consistent_pruned with i j dx dy; try done.
      by rewrite Hcw.
    - split; [done|]. intros x y Hx Hy. left. by apply elem_of_all_arcs. }
  unfold ac3 in Hac3. rewrite Hac3 in Hinv. destruct Hinv as [Hcw HI].
  intros x y i j dx dy Hy Hov Hdx Hdy w Hw.
  destruct (HI x y) as [[]%elem_of_nil|Hcons]; [by eapply elem_of_dom_2|done|].
  destruct (Hcons i j dx dy Hov Hdx Hdy w Hw) as (w' & Hw' & c & ? & ?).
  by exists w', c.
Qed.

Lemma ac3_arc_consistent_witness :
  ∃ self', ac3 5 None (enforce_node_consistency (init puzzle_B)) = Ok true self' ∧
    ∀ w, w ∈ ({[ "CAT"; "ACE" ]} : gset string) →
      ∃ w' c, w' ∈ ({[ "CAT"; "ACE" ]} : gset string) ∧
        String.get 1 w = Some c ∧ String.get 0 w' = Some c.
Proof.
  eexists. split; [vm_compute; reflexivity|].
  eapply (ac3_arc_consistent 5 (enforce_node_consistency (init puzzle_B)) _
            well_formed_puzzle_B) with (x := across) (y := down).
  - vm_compute. reflexivity.
  - vm_compute. reflexivity.
  - vm_compute. reflexivity.
  - vm_compute. reflexivity.
  - vm_compute. reflexivity.
Defined.

(** C6 (node-consistency postcondition).  After [enforce_node_consistency],
    the domain of every variable [v] consists of exactly the words of its
    former domain whose length is [v.length]: every word left has that
    length, and the words removed are those of a different length. *)
Theorem enforce_node_consistency_post self v d :
  domains self !! v = Some d →
  ∃ d', domains (enforce_node_consistency self) !! v = Some d' ∧
    (∀ w, w ∈ d' → String.length w = Var.length v) ∧
    (∀ w, w ∈ d → (w ∉ d' ↔ String.length w ≠ Var.length v)) ∧
    d' ⊆ d.
Proof.
  intros Hd. rewrite lookup_enforce_node_consistency, Hd. simpl.
  eexists. split; [done|]. split; [|split].
  - by intros w [? _]%elem_of_filter.
  - intros w Hw. rewrite elem_of_filter. tauto.
  - by intros w [_ ?]%elem_of_filter.
Qed.

Lemma enforce_node_consistency_post_witness :
  ∃ d', domains (enforce_node_consistency (init puzzle_D)) !! across2 = Some d' ∧
    (∀ w, w ∈ d' → String.length w = Var.length across2) ∧
    (∀ w, w ∈ words puzzle_D →
       (w ∉ d' ↔ String.length w ≠ Var.length across2)) ∧
    d' ⊆ words puzzle_D.
Proof.
  apply (enforce_node_consistency_post (init puzzle_D) across2 (words puzzle_D)).
  vm_compute. reflexivity.
Defined.

(** C5 (contract of [revise]).  Without an overlap between [x] and [y],
    [revise] returns [False] and changes nothing.  With the overlap
    [(i, j)], and the indices in range of the words at hand, it returns
    normally, the new domain of [x] holds exactly the former words that have
    a partner in the domain of [y] (the others are removed), and the value
    returned is [True] exactly when some word was removed. *)
Theorem revise_contract self x y :
  (overlaps_get (crossword self) x y = None → revise x y self = Ok false self) ∧
  (∀ i j dx dy,
     overlaps_get (crossword self) x y = Some (i, j) →
     domains self !! x = Some dx →
     domains self !! y = Some dy →
     (∀ w, w ∈ dx → i < String.length w) →
     (∀ w', w' ∈ dy → j < String.length w') →
     ∃ (removed : bool) dx',
       revise x y self
         = Ok removed (set_domains (<[x := dx']> (domains self)) self) ∧
       (∀ w, w ∈ dx' ↔
          w ∈ dx ∧ ∃ w' c, w' ∈ dy ∧
            String.get i w = Some c ∧ String.get j w' = Some c) ∧
       (removed = true ↔ ∃ w, w ∈ dx ∧ w ∉ dx')).
Proof.
  split.
  { intros Hov. unfold revise. by rewrite Hov. }
  intros i j dx dy Hov Hdx Hdy Hi Hj.
  assert (∀ w, supported dy i j w ↔
            ∃ w' c, w' ∈ dy ∧ String.get i w = Some c ∧ String.get j w' = Some c)
    as Hsup.
  { intros w. unfold supported, set_Exists, agree. naive_solver. }
  destruct (revise_total self x y i j dx dy) as (b & self' & Hrev); try done.
  pose proof (revise_cases x y self) as Hcases. rewrite Hrev in Hcases.
  inversion Hcases as [|Hall|i' j' dx0 dx' Hov' Hdx0 Hsub Hdx' _]; subst.
  - exists false, dx. split; [|split].
    + f_equal. destruct self' as [cw d n]. unfold set_domains. simpl in *.
      by rewrite insert_id.
    + intros w. rewrite <-Hsup. split; [|tauto].
      intros Hw. split; [done|]. by apply (Hall i j dx dy).
    + split; [done|]. by intros (w & ? & ?).
  - assert (i' = i ∧ j' = j ∧ dx0 = dx) as (-> & -> & ->) by naive_solver.
    exists true, dx'. split; [done|]. split.
    + intros w. rewrite <-Hsup. by apply Hdx'.
    + split; [|done]. intros _. destruct Hsub as [Hsub Hnot].
      apply dec_stable. intros Hno. apply Hnot. intros w Hw.
      apply dec_stable. intros Hw'. apply Hno. by exists w.
Qed.

Lemma revise_contract_witness :
  ∃ (removed : bool) dx',
    revise across down (enforce_node_consistency (init puzzle_B))
      = Ok removed
          (set_domains
             (<[across := dx']>
                (domains (enforce_node_consistency (init puzzle_B))))
             (enforce_node_consistency (init puzzle_B))) ∧
    (∀ w, w ∈ dx' ↔
       w ∈ words puzzle_B ∧ ∃ w' c, w' ∈ words puzzle_B ∧
         String.get 1 w = Some c ∧ String.get 0 w' = Some c) ∧
    (removed = true ↔ ∃ w, w ∈ words puzzle_B ∧ w ∉ dx').
Proof.
  apply (proj2 (revise_contract (enforce_node_consistency (init puzzle_B))
                  across down)).
  - vm_compute. reflexivity.
  - vm_compute. reflexivity.
  - vm_compute. reflexivity.
  - intros w Hw.
    assert (w = "CAT" ∨ w = "ACE" ∨ w = "TIE")%string as [-> | [-> | ->]]
      by set_solver; simpl; lia.
  - intros w Hw.
    assert (w = "CAT" ∨ w = "ACE" ∨ w = "TIE")%string as [-> | [-> | ->]]
      by set_solver; simpl; lia.
Defined.

(** C10 (frame of [revise]).  However a call [revise(x, y)] ends, it leaves
    the puzzle description as it was, gives no variable a domain or takes
    one away, and leaves the domain of every variable other than [x]
    untouched. *)
Theorem revise_frame self x y :
  crossword (final_state (revise x y self)) = crossword self ∧
  dom (domains (final_state (revise x y self))) = dom (domains self) ∧
  ∀ z, z ≠ x →
    domains (final_state (revise x y self)) !! z = domains self !! z.
Proof.
  split; [apply revise_crossword|].
  split; [apply revise_never_grows|].
  intros z Hz.
  destruct (revise_cases x y self) as [e| |i j dx dx' ? ? ? ? ?]; simpl;
    [done|done|].
  by rewrite lookup_insert_ne.
Qed.

(** C9 (domains never grow).  [enforce_node_consistency], [revise] and
    [ac3], however they end, leave every variable with a subset of the
    domain it had before, and give no variable a domain it did not have. *)
Theorem domains_never_grow self :
  never_grows self (enforce_node_consistency self) ∧
  (∀ x y, never_grows self (final_state (revise x y self))) ∧
  (∀ fuel arcs, never_grows self (final_state (ac3 fuel arcs self))).
Proof.
  split; [apply enforce_node_consistency_never_grows|].
  split; [intros; apply revise_never_grows|].
  intros fuel arcs. apply ac3_loop_never_grows.
Qed.

(** C7 (termination of AC-3).  For every state of the solver and every
    list of arcs there is an amount of fuel from which on [ac3] never runs
    out: the loop stops after at most
    [length arcs + max_degree * total_size] iterations, because an
    iteration that enqueues arcs removes a word from some domain. *)
Theorem ac3_terminates self arcs :
  ∃ n, ∀ fuel, n ≤ fuel →
    ∃ r, ac3 fuel arcs self = r ∧ ∀ s, r ≠ OutOfFuel s.
Proof.
  set (queue := match arcs with None => all_arcs self | Some a => a end).
  exists (length queue +
          max_degree (crossword self) (dom (domains self))
          * total_size (domains self)).
  intros fuel Hfuel. eexists. split; [done|].
  by apply ac3_loop_enough_fuel.
Qed.

(** ** Sorting by a key *)

Lemma mapE_Val {A B} (f : A → E B) l ys :
  mapE f l = Val ys ↔ Forall2 (λ x y, f x = Val y) l ys.
Proof.
  revert ys. induction l as [|x l IH]; intros ys; simpl.
  - split; [intros [= <-]; constructor|by inversion 1].
  - rewrite bind_Val. split.
    + intros (y & Hy & (ys' & Hys%IH & [= <-])%bind_Val). by constructor.
    + inversion 1 as [|? y ? ys' Hy Hys]; subst. exists y. split; [done|].
      apply bind_Val. exists ys'. by rewrite IH.
Qed.

Lemma mapE_total {A B} (f : A → E B) l :
  (∀ x, x ∈ l → ∃ y, f x = Val y) → ∃ ys, mapE f l = Val ys.
Proof.
  induction l as [|x l IH]; intros Hf; simpl; [by eexists|].
  destruct (Hf x) as [y ->]; [left|]. simpl.
  destruct IH as [ys ->]; [intros ??; apply Hf; by right|]. simpl. by eexists.
Qed.

Section sorted_lemmas.
Context {K A : Type} (le : K → K → Prop) `{!∀ a b, Decision (le a b)}.

Lemma insert_keyed_Permutation (x : K * A) l : insert_keyed le x l ≡ₚ x :: l.
Proof.
  induction l as [|y l IH]; simpl; [done|].
  destruct (decide (le x.1 y.1)); [done|]. rewrite IH. apply Permutation_swap.
Qed.

Lemma sort_keyed_Permutation (l : list (K * A)) : sort_keyed le l ≡ₚ l.
Proof.
  induction l as [|x l IH]; simpl; [done|].
  by rewrite insert_keyed_Permutation, IH.
Qed.

Context (le_total : ∀ a b, le a b ∨ le b a) (le_trans : ∀ a b c, le a b → le b c → le a c).

Lemma insert_keyed_head_least (x : K * A) l :
  head_least le l → head_least le (insert_keyed le x l).
Proof.
  intros Hl. destruct l as [|y l]; simpl.
  - intros ? [= <-] z ->%list_elem_of_singleton.
    by destruct (le_total x.1 x.1).
  - destruct (decide (le x.1 y.1)) as [Hxy|Hxy]; simpl.
    + intros ? [= <-] z [->|Hz]%elem_of_cons;
        [by destruct (le_total x.1 x.1)|].
      apply le_trans with y.1; [done|]. by apply Hl.
    + intros ? [= <-] z Hz.
      apply elem_of_cons in Hz as [->|Hz]; [by apply Hl; [|left]|].
      apply (elem_of_Permutation_proper _ _ _ (insert_keyed_Permutation x l)) in Hz.
      apply elem_of_cons in Hz as [->|Hz].
      * by destruct (le_total x.1 y.1).
      * apply Hl; [done|by right].
Qed.

Lemma sort_keyed_head_least (l : list (K * A)) : head_least le (sort_keyed le l).
Proof.
  induction l as [|x l IH]; simpl; [by intros ? [=]|].
  by apply insert_keyed_head_least.
Qed.

Lemma sorted_Val (key : A → E K) l r :
  sorted le key l = Val r →
  r ≡ₚ l ∧
  ∀ x, head r = Some x →
    ∃ kx, key x = Val kx ∧ ∀ y, y ∈ l → ∃ ky, key y = Val ky ∧ le kx ky.
Proof.
  unfold sorted. intros (keyed & Hkeyed%mapE_Val & [= <-])%bind_Val.
  assert (keyed.*2 = l ∧ Forall (λ p, key p.2 = Val p.1) keyed) as [Hl Hkeys].
  { clear -Hkeyed. induction Hkeyed as [|x p l keyed Hp _ [IH1 IH2]]; [done|].
    apply bind_Val in Hp as (k & Hk & [= <-]). simpl. split; [by f_equal|].
    by constructor. }
  pose proof (sort_keyed_Permutation keyed) as Hperm.
  split; [by rewrite Hperm, Hl|].
  intros x Hx. destruct (sort_keyed le keyed) as [|[kx x'] rest] eqn:Hs; [done|].
  injection Hx as ->.
  rewrite Forall_forall in Hkeys. exists kx. split.
  { apply (Hkeys (kx, x)). rewrite <-Hperm. left. }
  intros y Hy. rewrite <-Hl in Hy.
  apply list_elem_of_fmap in Hy as ([ky y'] & -> & Hy). exists ky.
  split; [by apply (Hkeys (ky, y'))|].
  pose proof (sort_keyed_head_least keyed) as Hleast. rewrite Hs in Hleast.
  apply (Hleast (kx, x) eq_refl (ky, y')). by rewrite Hperm.
Qed.

Lemma sorted_total (key : A → E K) l :
  (∀ x, x ∈ l → ∃ k, key x = Val k) → ∃ r, sorted le key l = Val r.
Proof.
  intros Hkey. unfold sorted.
  destruct (mapE_total (λ x, k ← key x; Val (k, x)) l) as [keyed ->].
  { intros x [k ->]%Hkey. by eexists. }
  by eexists.
Qed.
End sorted_lemmas.

(** ** The variable-selection heuristic *)

Lemma tuple_le_total p q : tuple_le p q ∨ tuple_le q p.
Proof. unfold tuple_le. lia. Qed.

Lemma tuple_le_trans p q r : tuple_le p q → tuple_le q r → tuple_le p r.
Proof. unfold tuple_le. lia. Qed.

Lemma select_key_Val self var k :
  select_key self var = Val k ↔
  ∃ d, domains self !! var = Some d ∧
    k = (size d, (- Z.of_nat (size (neighbors (crossword self) var)))%Z).
Proof.
  unfold select_key. rewrite bind_Val. setoid_rewrite domain_Val. naive_solver.
Qed.

(** What [select_unassigned_variable] returns when it does not raise. *)
Lemma select_unassigned_variable_Val self assignment r :
  select_unassigned_variable self assignment = Val r →
  match r with
  | None => ∀ u, u ∈ variables (crossword self) → is_Some (assignment !! u)
  | Some v =>
      v ∈ variables (crossword self) ∧ assignment !! v = None ∧
      ∃ dv, domains self !! v = Some dv ∧
        ∀ u, u ∈ variables (crossword self) → assignment !! u = None →
          ∃ du, domains self !! u = Some du ∧
            tuple_le
              (size dv, (- Z.of_nat (size (neighbors (crossword self) v)))%Z)
              (size du, (- Z.of_nat (size (neighbors (crossword self) u)))%Z)
  end.
Proof.
  unfold select_unassigned_variable.
  intros (l & Hsorted & [= <-])%bind_Val.
  apply (sorted_Val tuple_le tuple_le_total tuple_le_trans) in Hsorted
    as [Hperm Hhead].
  destruct l as [|v l]; simpl.
  - intros u Hu. destruct (assignment !! u) eqn:Hau; [done|].
    apply Permutation_nil_l in Hperm.
    assert (u ∈ filter (λ v, assignment !! v = None)
                  (elements (variables (crossword self)))) as Hin.
    { apply list_elem_of_filter. by rewrite elem_of_elements. }
    rewrite <-Hperm in Hin. by apply elem_of_nil in Hin.
  - assert (v ∈ filter (λ v, assignment !! v = None)
                  (elements (variables (crossword self)))) as Hv.
    { rewrite <-Hperm. left. }
    apply list_elem_of_filter in Hv as [Hav Hv%elem_of_elements].
    split; [done|]. split; [done|].
    destruct (Hhead v eq_refl) as (kv & (dv & Hdv & ->)%select_key_Val & Hle).
    exists dv. split; [done|]. intros u Hu Hau.
    destruct (Hle u) as (ku & (du & Hdu & ->)%select_key_Val & ?).
    { apply list_elem_of_filter. by rewrite elem_of_elements. }
    by exists du.
Qed.

Lemma select_unassigned_variable_total self assignment :
  variables (crossword self) ⊆ dom (domains self) →
  ∃ r, select_unassigned_variable self assignment = Val r.
Proof.
  intros Hdom. unfold select_unassigned_variable.
  destruct (sorted_total tuple_le (select_key self)
              (filter (λ v, assignment !! v = None)
                 (elements (variables (crossword self))))) as [l ->].
  { intros v [_ Hv%elem_of_elements]%list_elem_of_filter.
    apply Hdom, elem_of_dom in Hv as [d Hd]. eexists.
    apply select_key_Val. by exists d. }
  by eexists.
Qed.

(** C8 (variable selection).  For an assignment over the puzzle's variables
    that is not complete, [select_unassigned_variable] returns a variable
    [v] that is unassigned, whose domain is no larger than that of any
    unassigned variable, and which has at least as many neighbours as any
    unassigned variable with a domain of the same size. *)
Theorem select_unassigned_variable_mrv_degree self assignment :
  variables (crossword self) ⊆ dom (domains self) →
  dom assignment ⊆ variables (crossword self) →
  assignment_complete self assignment = false →
  ∃ v dv,
    select_unassigned_variable self assignment = Val (Some v) ∧
    v ∈ variables (crossword self) ∧ assignment !! v = None ∧
    domains self !! v = Some dv ∧
    ∀ u, u ∈ variables (crossword self) → assignment !! u = None →
      ∃ du, domains self !! u = Some du ∧
        size dv ≤ size du ∧
        (size dv = size du →
           size (neighbors (crossword self) u)
           ≤ size (neighbors (crossword self) v)).
Proof.
  intros Hdom Hsub Hincomplete.
  destruct (select_unassigned_variable_total self assignment Hdom) as [r Hr].
  pose proof (select_unassigned_variable_Val _ _ _ Hr) as Hspec.
  destruct r as [v|].
  - destruct Hspec as (Hv & Hav & dv & Hdv & Hmin).
    exists v, dv. repeat (split; [done|]).
    intros u Hu Hau. destruct (Hmin u Hu Hau) as (du & Hdu & Hle).
    exists du. split; [done|]. unfold tuple_le in Hle. simpl in Hle. lia.
  - exfalso. unfold assignment_complete in Hincomplete.
    apply bool_decide_eq_false in Hincomplete. apply Hincomplete.
    apply set_eq. intros u. split; [apply Hsub|].
    intros Hu. apply elem_of_dom. by apply Hspec.
Qed.

Lemma select_unassigned_variable_mrv_degree_witness :
  ∃ v dv,
    select_unassigned_variable (enforce_node_consistency (init puzzle_D)) ∅
      = Val (Some v) ∧
    v ∈ variables puzzle_D ∧ (∅ : Assignment) !! v = None ∧
    domains (enforce_node_consistency (init puzzle_D)) !! v = Some dv ∧
    ∀ u, u ∈ variables puzzle_D → (∅ : Assignment) !! u = None →
      ∃ du, domains (enforce_node_consistency (init puzzle_D)) !! u = Some du ∧
        size dv ≤ size du ∧
        (size dv = size du →
           size (neighbors puzzle_D u) ≤ size (neighbors puzzle_D v)).
Proof.
  apply (select_unassigned_variable_mrv_degree
           (enforce_node_consistency (init puzzle_D)) ∅).
  - apply (bool_decide_unpack _). vm_compute. reflexivity.
  - apply (bool_decide_unpack _). vm_compute. reflexivity.
  - vm_compute. reflexivity.
Defined.

(** ** The consistency checker *)

Lemma size_map_img_le (m : Assignment) : size (map_img m : gset string) ≤ size m.
Proof.
  induction m as [|x w m Hx IH] using map_ind.
  - by rewrite map_img_empty_L, size_empty, map_size_empty.
  - rewrite map_img_insert_notin_L, map_size_insert_None by done.
    destruct (decide (w ∈ (map_img m : gset string))) as [Hw|Hw].
    + assert ({[w]} ∪ map_img m = (map_img m : gset string)) as -> by set_solver.
      lia.
    + rewrite size_union, size_singleton by set_solver. lia.
Qed.

Lemma distinct_values (m : Assignment) :
  ¬ size (map_img m : gset string) < size m ↔
  ∀ x y w, m !! x = Some w → m !! y = Some w → x = y.
Proof.
  induction m as [|x w m Hx IH] using map_ind.
  - rewrite map_img_empty_L, size_empty, map_size_empty.
    split; [|lia]. intros _ ???. by rewrite lookup_empty.
  - rewrite map_img_insert_notin_L, map_size_insert_None by done.
    pose proof (size_map_img_le m) as Hle.
    destruct (decide (w ∈ (map_img m : gset string))) as [Hw|Hw].
    + assert ({[w]} ∪ map_img m = (map_img m : gset string)) as -> by set_solver.
      split; [lia|]. intros Hinj. exfalso.
      apply elem_of_map_img in Hw as [y Hy].
      assert (x = y) as <-; [|congruence].
      apply (Hinj x y w); [apply lookup_insert_eq|].
      rewrite lookup_insert_ne; [done|congruence].
    + rewrite size_union, size_singleton by set_solver.
      rewrite not_elem_of_map_img in Hw.
      assert (¬ 1 + size (map_img m : gset string) < S (size m) ↔
              ¬ size (map_img m : gset string) < size m) as -> by lia.
      rewrite IH. split.
      * intros Hinj a b v. rewrite !lookup_insert.
        repeat case_decide; subst; intros [= ?] [= ?]; subst; try done.
        -- by destruct (Hw b).
        -- by destruct (Hw a).
        -- by apply (Hinj a b v).
      * intros Hinj a b v Ha Hb. apply (Hinj a b v).
        -- rewrite lookup_insert_ne; [done|congruence].
        -- rewrite lookup_insert_ne; [done|congruence].
Qed.

Lemma consistent_neighbors_Val cw assignment var word ns b :
  consistent_neighbors cw assignment var word ns = Val b →
  (b = true ↔
   ∀ y wy i j, y ∈ ns → assignment !! y = Some wy →
     overlaps_get cw var y = Some (i, j) → agree word i wy j).
Proof.
  revert b. induction ns as [|n ns IH]; simpl; intros b.
  { intros [= <-]. split; [|done]. intros _ ???? []%elem_of_nil. }
  destruct (assignment !! n) as [other|] eqn:Hn.
  2:{ intros ->%IH. split.
      - intros H y wy i j [->|Hy]%elem_of_cons; [congruence|]. by apply H.
      - intros H y wy i j Hy. apply H. by right. }
  destruct (overlaps_get cw var n) as [[i j]|] eqn:Hov.
  2:{ intros ->%IH. split.
      - intros H y wy i j [->|Hy]%elem_of_cons; [congruence|]. by apply H.
      - intros H y wy i j Hy. apply H. by right. }
  intros (a & Ha%index_Val & (c & Hc%index_Val & Hb)%bind_Val)%bind_Val.
  destruct (decide (a ≠ c)) as [Hne|Heq%dec_stable].
  - injection Hb as <-. split; [done|]. intros H.
    destruct (H n other i j) as (k & ? & ?); [left|done|done|]. congruence.
  - subst c. rewrite (IH _ Hb). split.
    + intros H y wy i' j' [->|Hy]%elem_of_cons; [|by apply H].
      intros Hy' Hov'. rewrite Hn in Hy'. rewrite Hov in Hov'.
      injection Hy' as <-. injection Hov' as <- <-. by exists a.
    + intros H y wy i' j' Hy. apply H. by right.
Qed.

Lemma consistent_vars_Val cw assignment items b :
  consistent_vars cw assignment items = Val b →
  (b = true ↔
   ∀ x wx, (x, wx) ∈ items →
     String.length wx = Var.length x ∧
     ∀ y wy i j, y ∈ neighbors cw x → assignment !! y = Some wy →
       overlaps_get cw x y = Some (i, j) → agree wx i wy j).
Proof.
  revert b. induction items as [|[var word] items IH]; simpl; intros b.
  { intros [= <-]. split; [|done]. intros _ ?? []%elem_of_nil. }
  destruct (decide (String.length word ≠ Var.length var)) as [Hlen|Hlen%dec_stable].
  { intros [= <-]. split; [done|]. intros H.
    destruct (H var word) as [? _]; [left|done]. }
  intros (ok & Hok%consistent_neighbors_Val & Hb)%bind_Val.
  setoid_rewrite elem_of_elements in Hok.
  destruct ok.
  - rewrite (IH _ Hb). split.
    + intros H x wx [[= -> ->]|Hx]%elem_of_cons; [|by apply H].
      split; [done|]. by apply Hok.
    + intros H x wx Hx. apply H. by right.
  - injection Hb as <-. split; [done|]. intros H.
    destruct (H var word) as [_ Hnb]; [left|].
    assert (false = true); [|done]. by apply Hok.
Qed.

Lemma consistent_Val self assignment b :
  consistent self assignment = Val b →
  (b = true ↔ valid (crossword self) assignment).
Proof.
  unfold consistent, valid.
  destruct (decide (size (map_img assignment : gset string) < size assignment))
    as [Hlt|Hnlt].
  { intros [= <-]. split; [done|]. intros [Hinj _].
    by destruct (proj2 (distinct_values assignment) Hinj). }
  intros ->%consistent_vars_Val.
  pose proof (proj1 (distinct_values assignment) Hnlt) as Hinj.
  setoid_rewrite elem_of_map_to_list. split.
  - intros H. split; [done|]. split.
    + intros x w Hx. by apply H.
    + intros x y i j wx wy Hx Hy Hnb Hov.
      destruct (H x wx Hx) as [_ Hag]. by apply (Hag y wy i j).
  - intros (_ & Hlen & Hag) x wx Hx. split; [by apply Hlen|].
    intros y wy i j Hnb Hy Hov. by apply (Hag x y i j wx wy).
Qed.

Lemma consistent_empty self : consistent self ∅ = Val true.
Proof.
  unfold consistent. rewrite map_img_empty_L, size_empty, map_size_empty.
  rewrite map_to_list_empty. by destruct (decide (0 < 0)); [lia|].
Qed.

Lemma consistent_neighbors_total cw assignment var word ns :
  well_formed cw →
  String.length word = Var.length var →
  (∀ x w, assignment !! x = Some w → String.length w = Var.length x) →
  ∃ b, consistent_neighbors cw assignment var word ns = Val b.
Proof.
  intros Hwf Hword Hlen. induction ns as [|n ns IH]; simpl; [by eexists|].
  destruct (assignment !! n) as [other|] eqn:Hn; [|done].
  destruct (overlaps_get cw var n) as [[i j]|] eqn:Hov; [|done].
  destruct (well_formed_overlap _ _ _ _ _ Hwf Hov) as (_ & _ & _ & _ & Hi & Hj).
  destruct (index_in_range word i) as [a ->]; [lia|].
  destruct (index_in_range other j) as [c ->]; [rewrite (Hlen n other Hn); lia|].
  simpl. destruct (decide (a ≠ c)); [by eexists|done].
Qed.

Lemma consistent_total self assignment :
  well_formed (crossword self) →
  (∀ x w, assignment !! x = Some w → String.length w = Var.length x) →
  ∃ b, consistent self assignment = Val b.
Proof.
  intros Hwf Hlen. unfold consistent.
  destruct (decide (size (map_img assignment : gset string) < size assignment));
    [by eexists|].
  assert (∀ x w, (x, w) ∈ map_to_list assignment →
                 String.length w = Var.length x) as Hitems.
  { intros x w ?%elem_of_map_to_list. by apply Hlen. }
  induction (map_to_list assignment) as [|[var word] items IH]; simpl;
    [by eexists|].
  assert (String.length word = Var.length var) as Hword by (apply Hitems; left).
  destruct (decide (String.length word ≠ Var.length var)); [done|].
  destruct (consistent_neighbors_total (crossword self) assignment var word
              (elements (neighbors (crossword self) var)) Hwf Hword Hlen)
    as [ok ->].
  simpl. destruct ok; [|by eexists].
  apply IH. intros x w ?. apply Hitems. by right.
Qed.

(** ** Backtracking search: what it leaves alone, and soundness *)

Lemma only_counts_refl s : only_counts s s.
Proof. done. Qed.

Lemma only_counts_trans s1 s2 s3 :
  only_counts s1 s2 → only_counts s2 s3 → only_counts s1 s3.
Proof. intros [? ?] [? ?]. split; congruence. Qed.

Lemma consistent_ext s1 s2 assignment :
  crossword s1 = crossword s2 →
  consistent s1 assignment = consistent s2 assignment.
Proof. unfold consistent. by intros ->. Qed.

Lemma try_values_only_counts rec var assignment values s :
  (∀ a s, only_counts s (final_state (rec a s))) →
  only_counts s (final_state (try_values rec var assignment values s)).
Proof.
  intros Hrec. revert s. induction values as [|value values IH]; intros s; simpl;
    [done|].
  destruct (consistent s (<[var:=value]> assignment)) as [[]|]; [| |done].
  - pose proof (Hrec (<[var:=value]> assignment) s) as Hs.
    destruct (rec (<[var:=value]> assignment) s) as [[r|] s'| |]; simpl in *;
      try done.
    by eapply only_counts_trans.
  - apply IH.
Qed.

Lemma backtrack_only_counts fuel assignment s :
  only_counts s (final_state (backtrack fuel assignment s)).
Proof.
  revert assignment s. induction fuel as [|fuel IH]; intros assignment s; simpl;
    [done|].
  destruct (assignment_complete _ _); [done|].
  destruct (select_unassigned_variable _ _) as [[var|]|]; [|done|done].
  destruct (order_domain_values _ _ _) as [values|]; [|done].
  apply (only_counts_trans _ (count_backtrack_call s)); [done|].
  by apply try_values_only_counts.
Qed.

Lemma try_values_sound rec var assignment values s r s' (P : Assignment → Prop) :
  (∀ a s, only_counts s (final_state (rec a s))) →
  (∀ a s1 r s2, crossword s1 = crossword s →
     rec a s1 = Ok (Some r) s2 → consistent s1 a = Val true → P r) →
  try_values rec var assignment values s = Ok (Some r) s' →
  P r.
Proof.
  intros Hsame Hrec.
  assert (∀ s1, crossword s1 = crossword s →
            try_values rec var assignment values s1 = Ok (Some r) s' → P r)
    as Hgen; [|by apply Hgen].
  induction values as [|value values IH]; intros s1 Hcw; simpl; [done|].
  destruct (consistent s1 (<[var:=value]> assignment)) as [[]|] eqn:Hcons;
    [|by apply IH|done].
  pose proof (Hsame (<[var:=value]> assignment) s1) as [Hcw' _].
  destruct (rec (<[var:=value]> assignment) s1) as [[r'|] s2| |] eqn:Hr;
    simpl in *; try done.
  - intros [= -> ->]. by eapply Hrec.
  - apply IH. congruence.
Qed.

Lemma backtrack_sound fuel assignment s r s' :
  backtrack fuel assignment s = Ok (Some r) s' →
  consistent s assignment = Val true →
  dom r = variables (crossword s) ∧ consistent s r = Val true.
Proof.
  revert assignment s r s'.
  induction fuel as [|fuel IH]; intros assignment s r s'; simpl; [done|].
  destruct (assignment_complete _ _) eqn:Hcomplete.
  { intros [= -> _] Hcons. split; [|done].
    by apply bool_decide_eq_true in Hcomplete. }
  destruct (select_unassigned_variable _ _) as [[var|]|]; [|done|done].
  destruct (order_domain_values _ _ _) as [values|]; [|done].
  intros Htry _.
  apply (try_values_sound _ _ _ _ _ _ _
           (λ r, dom r = variables (crossword s) ∧ consistent s r = Val true))
    in Htry; [done|apply backtrack_only_counts|].
  intros a s1 r' s2 Hcw Hrec Hcons. simpl in Hcw.
  destruct (IH _ _ _ _ Hrec Hcons) as [? ?]. rewrite Hcw in *.
  split; [done|]. by rewrite <-(consistent_ext s1 s).
Qed.

Lemma overlap_neighbors cw x y i j :
  well_formed cw → overlaps_get cw x y = Some (i, j) → y ∈ neighbors cw x.
Proof.
  intros Hwf Hov.
  destruct (well_formed_overlap _ _ _ _ _ Hwf Hov) as (_ & ? & ? & ? & _).
  apply elem_of_neighbors. eauto.
Qed.

Lemma enforce_node_consistency_crossword self :
  crossword (enforce_node_consistency self) = crossword self.
Proof. done. Qed.

(** How [solve] decomposes when it returns. *)
Lemma solve_Ok fuel self r s' :
  solve fuel self = Ok r s' →
  ∃ b s2, ac3 fuel None (enforce_node_consistency self) = Ok b s2 ∧
    backtrack fuel ∅ s2 = Ok r s' ∧ crossword s2 = crossword self.
Proof.
  unfold solve. intros Hsolve.
  pose proof (ac3_loop_crossword fuel
                (all_arcs (enforce_node_consistency self))
                (enforce_node_consistency self)) as Hcw.
  unfold ac3 in *.
  destruct (ac3_loop fuel _ _) as [b s2| |]; [|done|done].
  by exists b, s2.
Qed.

(** C2 (soundness).  An assignment returned by [backtrack] started on the
    empty assignment, and so one returned by [solve], is complete: it
    assigns a word to exactly the variables of the puzzle.  Its words are
    pairwise distinct, each has the length of its variable, and two
    neighbouring variables agree at their overlap indices; on a well-formed
    puzzle that covers every pair of variables with an overlap. *)
Theorem solve_sound fuel self r self' :
  backtrack fuel ∅ self = Ok (Some r) self' ∨
  solve fuel self = Ok (Some r) self' →
  dom r = variables (crossword self) ∧
  consistent self r = Val true ∧
  (∀ x y w, r !! x = Some w → r !! y = Some w → x = y) ∧
  (∀ x w, r !! x = Some w → String.length w = Var.length x) ∧
  (∀ x y i j wx wy,
     r !! x = Some wx → r !! y = Some wy →
     y ∈ neighbors (crossword self) x →
     overlaps_get (crossword self) x y = Some (i, j) →
     ∃ c, String.get i wx = Some c ∧ String.get j wy = Some c) ∧
  (well_formed (crossword self) →
   ∀ x y i j wx wy,
     r !! x = Some wx → r !! y = Some wy →
     overlaps_get (crossword self) x y = Some (i, j) →
     ∃ c, String.get i wx = Some c ∧ String.get j wy = Some c).
Proof.
  intros Hret.
  assert (dom r = variables (crossword self) ∧ consistent self r = Val true)
    as [Hdom Hcons].
  { destruct Hret as [Hbt|Hsolve].
    - apply (backtrack_sound _ _ _ _ _ Hbt). apply consistent_empty.
    - apply solve_Ok in Hsolve as (b & s2 & _ & Hbt & Hcw).
      destruct (backtrack_sound _ _ _ _ _ Hbt (consistent_empty s2)) as [? ?].
      rewrite Hcw in *. split; [done|]. by rewrite <-(consistent_ext s2 self). }
  split; [done|]. split; [done|].
  apply consistent_Val in Hcons. destruct (proj1 Hcons eq_refl) as (? & ? & Hag).
  repeat (split; [done|]).
  intros Hwf x y i j wx wy Hx Hy Hov. apply (Hag x y i j wx wy); try done.
  by apply overlap_neighbors with i j.
Qed.

Lemma solve_sound_witness :
  ∃ r self', solve 5 (init puzzle_B) = Ok (Some r) self' ∧
    dom r = variables puzzle_B ∧
    (∀ x y w, r !! x = Some w → r !! y = Some w → x = y) ∧
    (∀ x w, r !! x = Some w → String.length w = Var.length x) ∧
    (∀ x y i j wx wy,
       r !! x = Some wx → r !! y = Some wy →
       overlaps_get puzzle_B x y = Some (i, j) →
       ∃ c, String.get i wx = Some c ∧ String.get j wy = Some c).
Proof.
  eexists _, _. split; [vm_compute; reflexivity|].
  edestruct (solve_sound 5 (init puzzle_B)) as (H1 & _ & H2 & H3 & _ & H4).
  { right. vm_compute. reflexivity. }
  split; [exact H1|]. split; [exact H2|]. split; [exact H3|].
  exact (H4 well_formed_puzzle_B).
Defined.

(** ** Backtracking search: it returns, and finds a solution if there is one *)

Lemma valid_subseteq cw (a sol : Assignment) :
  a ⊆ sol → valid cw sol → valid cw a.
Proof.
  intros Hsub (Hinj & Hlen & Hag). split; [|split].
  - intros x y w Hx Hy. apply (Hinj x y w); by eapply lookup_weaken.
  - intros x w Hx. apply Hlen. by eapply lookup_weaken.
  - intros x y i j wx wy Hx Hy. apply Hag; by eapply lookup_weaken.
Qed.

Lemma count_in_domain_total value i j ws count :
  i < String.length value →
  (∀ w, w ∈ ws → j < String.length w) →
  ∃ n, count_in_domain value i j ws count = Val n.
Proof.
  intros [a Ha]%index_in_range. revert count.
  induction ws as [|w ws IH]; intros count Hj; simpl; [by eexists|].
  rewrite Ha. simpl.
  destruct (index_in_range w j) as [b ->]; [apply Hj; left|]. simpl.
  apply IH. intros ??. apply Hj. by right.
Qed.

Section search.
Context (cw : Crossword) (d : gmap Var.t (gset string)).
Hypothesis Hwf : well_formed cw.
Hypothesis Hdom : dom d = variables cw.
Hypothesis Hnode : ∀ v ws w, d !! v = Some ws → w ∈ ws →
  String.length w = Var.length v.

Lemma count_over_neighbors_total s var a value ns count :
  at_puzzle cw d s →
  String.length value = Var.length var →
  (∀ n, n ∈ ns → n ∈ variables cw) →
  ∃ n, count_over_neighbors s var a value ns count = Val n.
Proof.
  intros [Hcw Hd] Hvalue. revert count.
  induction ns as [|n ns IH]; intros count Hns; simpl; [by eexists|].
  assert (∀ n, n ∈ ns → n ∈ variables cw) as Hns'.
  { intros ??. apply Hns. by right. }
  destruct (a !! n); [by apply IH|].
  rewrite Hcw. destruct (overlaps_get cw var n) as [[i j]|] eqn:Hov;
    [|by apply IH].
  destruct (well_formed_overlap _ _ _ _ _ Hwf Hov) as (_ & Hn & _ & _ & Hi & Hj).
  rewrite <-Hdom in Hn. apply elem_of_dom in Hn as [ws Hws].
  unfold domain. rewrite Hd, Hws. simpl.
  destruct (count_in_domain_total value i j (elements ws) count) as [c ->];
    [lia| |].
  { intros w Hw%elem_of_elements. rewrite (Hnode n ws w); done. }
  simpl. by apply IH.
Qed.

Lemma order_domain_values_total s var a ws :
  at_puzzle cw d s → d !! var = Some ws →
  ∃ values, order_domain_values s var a = Val values ∧
    ∀ w, w ∈ values ↔ w ∈ ws.
Proof.
  intros Hs Hws. pose proof Hs as [Hcw Hd].
  unfold order_domain_values, domain. rewrite Hd, Hws. simpl.
  destruct (sorted_total le (count_conflicts s var a) (elements ws))
    as [values Hvalues].
  { intros value Hvalue%elem_of_elements. unfold count_conflicts.
    apply count_over_neighbors_total; [done|by apply (Hnode var ws)|].
    intros n [Hn _]%elem_of_elements%elem_of_neighbors. by rewrite Hcw in Hn. }
  exists values. split; [done|].
  apply (sorted_Val le Nat.le_ge_cases Nat.le_trans) in Hvalues as [Hperm _].
  intros w. by rewrite Hperm, elem_of_elements.
Qed.

Lemma partial_insert (a : Assignment) var value ws :
  partial cw a → d !! var = Some ws → value ∈ ws →
  partial cw (<[var := value]> a).
Proof.
  intros [Hsub Hlen] Hws Hvalue. split.
  - rewrite dom_insert_L. apply elem_of_dom_2 in Hws. set_solver.
  - intros x w. destruct (decide (var = x)) as [<-|Hne].
    + rewrite lookup_insert_eq. intros [= <-]. by apply (Hnode var ws).
    + rewrite lookup_insert_ne by done. apply Hlen.
Qed.

Lemma unassigned_insert (a : Assignment) var (value : string) :
  var ∈ variables cw → a !! var = None →
  size (variables cw ∖ dom (<[var := value]> a)) < size (variables cw ∖ dom a).
Proof.
  intros Hvar Ha. apply subset_size. rewrite dom_insert_L.
  apply not_elem_of_dom in Ha. set_solver.
Qed.

(** The loop over the candidate values, given that the recursive call
    returns and is complete. *)
Lemma try_values_total rec var a values s :
  (∀ a' s1, at_puzzle cw d s1 → only_counts s1 (final_state (rec a' s1))) →
  (∀ value s1, value ∈ values → at_puzzle cw d s1 →
     ∃ r s2, rec (<[var := value]> a) s1 = Ok r s2 ∧
       ∀ sol, solution cw d sol → <[var := value]> a ⊆ sol → is_Some r) →
  (∀ value x w, value ∈ values → <[var := value]> a !! x = Some w →
     String.length w = Var.length x) →
  at_puzzle cw d s →
  ∃ r s', try_values rec var a values s = Ok r s' ∧
    ∀ sol w, solution cw d sol → a ⊆ sol → sol !! var = Some w → w ∈ values →
      is_Some r.
Proof.
  intros Hsame. revert s.
  induction values as [|value values IH]; intros s Hrec Hlen Hs; simpl.
  { eexists _, _. split; [done|]. intros ???? _ []%elem_of_nil. }
  assert (∀ s1, at_puzzle cw d s1 →
    ∃ r s', try_values rec var a values s1 = Ok r s' ∧
      ∀ sol w, solution cw d sol → a ⊆ sol → sol !! var = Some w → w ∈ values →
        is_Some r) as IH'.
  { intros s1 Hs1. apply IH; [|by intros; eapply Hlen; [right|]|done].
    intros v s2 Hv. apply Hrec. by right. }
  destruct (consistent_total s (<[var := value]> a)) as [b Hb].
  { by rewrite (proj1 Hs). }
  { intros x w. apply Hlen. left. }
  rewrite Hb.
  assert (∀ sol w, solution cw d sol → a ⊆ sol → sol !! var = Some w →
            w = value → b = true) as Hsol.
  { intros sol w (_ & Hvalid & _) Hsub Hw ->.
    apply (consistent_Val _ _ _ Hb). rewrite (proj1 Hs).
    apply valid_subseteq with sol; [|done]. by apply insert_subseteq_l. }
  destruct b.
  - destruct (Hrec value s) as (r & s2 & Hr & Hfound); [left|done|].
    pose proof (Hsame (<[var := value]> a) s Hs) as Hs2.
    rewrite Hr in *. simpl in Hs2.
    destruct r as [r|].
    + eexists _, _. split; [done|]. by intros.
    + destruct (IH' s2) as (r & s' & -> & Hr').
      { destruct Hs as [? ?], Hs2 as [? ?]. split; congruence. }
      eexists _, _. split; [done|].
      intros sol w Hsolution Hsub Hw [->|Hin]%elem_of_cons; [|by eapply Hr'].
      destruct (Hfound sol Hsolution) as [? [=]]. by apply insert_subseteq_l.
  - destruct (IH' s Hs) as (r & s' & -> & Hr').
    eexists _, _. split; [done|].
    intros sol w Hsolution Hsub Hw [->|Hin]%elem_of_cons; [|by eapply Hr'].
    by specialize (Hsol sol value Hsolution Hsub Hw eq_refl).
Qed.

Lemma backtrack_total fuel a s :
  at_puzzle cw d s → partial cw a →
  size (variables cw ∖ dom a) < fuel →
  ∃ r s', backtrack fuel a s = Ok r s' ∧
    ∀ sol, solution cw d sol → a ⊆ sol → is_Some r.
Proof.
  revert a s. induction fuel as [|fuel IH]; intros a s Hs Ha Hfuel; [lia|].
  simpl. destruct (assignment_complete _ _) eqn:Hcomplete.
  { eexists _, _. split; [done|]. by intros. }
  assert (at_puzzle cw d (count_backtrack_call s)) as Hs' by done.
  destruct (select_unassigned_variable_total (count_backtrack_call s) a)
    as [r Hr].
  { simpl. by rewrite (proj1 Hs), (proj2 Hs), Hdom. }
  rewrite Hr. apply select_unassigned_variable_Val in Hr.
  simpl in Hr. rewrite (proj1 Hs) in Hr.
  destruct r as [var|].
  2:{ exfalso. apply bool_decide_eq_false in Hcomplete. apply Hcomplete.
      simpl. rewrite (proj1 Hs). apply set_eq. intros u.
      split; [apply Ha|]. intros Hu. apply elem_of_dom. by apply Hr. }
  destruct Hr as (Hvar & Havar & _).
  assert (is_Some (d !! var)) as [ws Hws].
  { apply elem_of_dom. by rewrite Hdom. }
  destruct (order_domain_values_total (count_backtrack_call s) var a ws Hs' Hws)
    as (values & -> & Hvalues).
  destruct (try_values_total (backtrack fuel) var a values
              (count_backtrack_call s)) as (r & s' & Hr & Hfound).
  - intros a' s1 _. apply backtrack_only_counts.
  - intros value s1 Hvalue%Hvalues Hs1. apply IH; [done| |].
    + by apply partial_insert with ws.
    + pose proof (unassigned_insert a var value Hvar Havar). lia.
  - intros value x w Hvalue%Hvalues.
    by apply (partial_insert a var value ws).
  - done.
  - exists r, s'. split; [done|].
    intros sol Hsolution Hsub.
    destruct Hsolution as (Hsdom & Hvalid & Hin).
    assert (is_Some (sol !! var)) as [w Hw].
    { apply elem_of_dom. by rewrite Hsdom. }
    apply (Hfound sol w); [done|done|done|].
    apply Hvalues. destruct (Hin var w Hw) as (ws' & Hws' & ?). congruence.
Qed.
End search.

(** ** [ac3] on a well-formed puzzle with node-consistent domains *)

Lemma never_grows_node_consistent s s' :
  never_grows s s' → node_consistent s → node_consistent s'.
Proof.
  intros [_ Hsub] Hnode v ws' w Hws' Hw.
  destruct (Hsub v ws' Hws') as (ws & Hws & Hincl).
  apply (Hnode v ws); [done|]. by apply Hincl.
Qed.

Lemma enforce_node_consistency_node_consistent self :
  node_consistent (enforce_node_consistency self).
Proof.
  intros v ws w. rewrite lookup_enforce_node_consistency.
  destruct (domains self !! v); [|done].
  by intros [= <-] [? _]%elem_of_filter.
Qed.

Lemma ac3_loop_no_raise fuel queue s :
  well_formed (crossword s) →
  dom (domains s) = variables (crossword s) →
  node_consistent s →
  (∀ x y, (x, y) ∈ queue →
     x ∈ variables (crossword s) ∧ y ∈ variables (crossword s)) →
  ∀ e s', ac3_loop fuel queue s ≠ Raise e s'.
Proof.
  revert queue s.
  induction fuel as [|fuel IH]; intros [|[x y] queue] s Hwf Hdom Hnode Hq e s';
    simpl; try done.
  assert (∀ a b, (a, b) ∈ queue →
            a ∈ variables (crossword s) ∧ b ∈ variables (crossword s)) as Hq'.
  { intros a b ?. apply Hq. by right. }
  destruct (overlaps_get (crossword s) x y) as [[i j]|] eqn:Hov.
  2:{ unfold revise. rewrite Hov. by apply IH. }
  destruct (Hq x y) as [Hx Hy]; [left|].
  rewrite <-Hdom in Hx, Hy.
  apply elem_of_dom in Hx as [dx Hdx]. apply elem_of_dom in Hy as [dy Hdy].
  destruct (well_formed_overlap _ _ _ _ _ Hwf Hov) as (_ & _ & _ & _ & Hi & Hj).
  destruct (revise_total s x y i j dx dy) as (b & s1 & Hrev); try done.
  { intros w Hw. rewrite (Hnode x dx w); done. }
  { intros w Hw. rewrite (Hnode y dy w); done. }
  pose proof (revise_cases x y s) as Hcases.
  pose proof (revise_never_grows x y s) as Hgrows.
  rewrite Hrev in *. simpl in Hgrows.
  inversion Hcases as [|Hall|i' j' dx0 dx' Hov' Hdx0 Hsub Hdx' _]; subst.
  - by apply IH.
  - unfold domain. simpl. rewrite lookup_insert_eq.
    destruct (decide (dx' = ∅)); [done|].
    apply IH; simpl; try done.
    + destruct Hgrows as [Hg _]. simpl in Hg. by rewrite Hg.
    + by apply (never_grows_node_consistent s).
    + intros a b [Hab|Hab]%elem_of_app; [by apply Hq'|].
      apply list_elem_of_fmap in Hab as (z & [= -> ->] & Hz).
      apply elem_of_elements, elem_of_difference in Hz as [Hz _].
      apply elem_of_neighbors in Hz as [Hz _]. split; [done|].
      rewrite <-Hdom. by eapply elem_of_dom_2.
Qed.

Lemma ac3_default_Ok fuel s :
  well_formed (crossword s) →
  dom (domains s) = variables (crossword s) →
  node_consistent s →
  length (all_arcs s) +
    max_degree (crossword s) (dom (domains s)) * total_size (domains s) ≤ fuel →
  ∃ b s', ac3 fuel None s = Ok b s'.
Proof.
  intros Hwf Hdom Hnode Hfuel. unfold ac3.
  pose proof (ac3_loop_enough_fuel fuel (all_arcs s) s Hfuel) as Hfuel'.
  assert (∀ x y, (x, y) ∈ all_arcs s →
            x ∈ variables (crossword s) ∧ y ∈ variables (crossword s)) as Harcs.
  { intros x y [Hx Hy]%elem_of_all_arcs. rewrite <-Hdom. split; [done|].
    apply elem_of_neighbors in Hy as [Hy _]. by rewrite Hdom. }
  pose proof (ac3_loop_no_raise fuel (all_arcs s) s Hwf Hdom Hnode Harcs)
    as Hraise.
  destruct (ac3_loop fuel (all_arcs s) s) as [b s'|e s'|s'].
  - by exists b, s'.
  - by destruct (Hraise e s').
  - by destruct (Hfuel' s').
Qed.

Lemma ac3_loop_keeps_solution fuel queue s sol :
  well_formed (crossword s) →
  dom sol = variables (crossword s) →
  valid (crossword s) sol →
  within_domains sol s →
  within_domains sol (final_state (ac3_loop fuel queue s)).
Proof.
  intros Hwf Hsdom Hvalid Hin.
  set (I := λ (_ : list (Var.t * Var.t)) s',
         crossword s' = crossword s ∧ within_domains sol s').
  assert (match ac3_loop fuel queue s with
          | Ok true s' => I [] s'
          | r => ∃ queue', I queue' (final_state r)
          end) as Hinv.
  { apply ac3_loop_invariant; [by intros ???? []| |done].
    intros x y q s1 i j dx dy dx' [Hcw Hin1] Hov Hdx Hdy _ Hdx'.
    split; [done|]. intros v w Hv. simpl.
    destruct (decide (x = v)) as [<-|Hne]; [|by rewrite lookup_insert_ne; auto].
    rewrite lookup_insert_eq. exists dx'. split; [done|].
    destruct (Hin1 x w Hv) as (ws & Hws & Hw).
    assert (ws = dx) as -> by congruence.
    apply Hdx'. split; [done|]. rewrite Hcw in Hov.
    destruct (well_formed_overlap _ _ _ _ _ Hwf Hov) as (_ & Hy & _).
    rewrite <-Hsdom in Hy. apply elem_of_dom in Hy as [wy Hwy].
    destruct (Hin1 y wy Hwy) as (ws & Hws' & Hwy').
    assert (ws = dy) as -> by congruence.
    exists wy. split; [done|].
    destruct Hvalid as (_ & _ & Hag). apply (Hag x y i j w wy); try done.
    by apply overlap_neighbors with i j. }
  destruct (ac3_loop fuel queue s) as [[] s'|e s'|s']; simpl;
    [apply Hinv|..]; by destruct Hinv as (? & ? & ?).
Qed.

Lemma satisfies_valid cw a : satisfies cw a → valid cw a.
Proof.
  intros (? & ? & Hag). repeat (split; [done|]).
  intros x y i j wx wy ?? _ ?. by apply (Hag x y i j).
Qed.

Lemma valid_satisfies cw a : well_formed cw → valid cw a → satisfies cw a.
Proof.
  intros Hwf (? & ? & Hag). repeat (split; [done|]).
  intros x y i j wx wy ???. apply (Hag x y i j); try done.
  by apply overlap_neighbors with i j.
Qed.

(** C3 (completeness).  On a well-formed puzzle that has some complete
    assignment of words of the word list satisfying the length, distinctness
    and overlap constraints, [solve], given enough fuel, returns an
    assignment (not the failure signal) that is complete and satisfies the
    same constraints. *)
Theorem solve_complete cw sol :
  well_formed cw →
  dom sol = variables cw →
  (∀ v w, sol !! v = Some w → w ∈ words cw) →
  satisfies cw sol →
  ∃ n, ∀ fuel, n ≤ fuel →
    ∃ r s', solve fuel (init cw) = Ok (Some r) s' ∧
      dom r = variables cw ∧ satisfies cw r.
Proof.
  intros Hwf Hsdom Hwords Hsat.
  pose (s1 := enforce_node_consistency (init cw)).
  assert (dom (domains s1) = variables cw) as Hdom1.
  { destruct (enforce_node_consistency_never_grows (init cw)) as [Hg _].
    unfold s1. rewrite Hg. simpl. apply dom_gset_to_gmap. }
  pose proof (enforce_node_consistency_node_consistent (init cw)) as Hnode1.
  assert (within_domains sol s1) as Hin1.
  { intros v w Hv. unfold s1. rewrite lookup_enforce_node_consistency. simpl.
    assert (v ∈ variables cw) as Hvar.
    { rewrite <-Hsdom. by eapply elem_of_dom_2. }
    rewrite (proj2 (lookup_gset_to_gmap_Some _ _ _ _) (conj Hvar eq_refl)).
    simpl. eexists. split; [done|]. apply elem_of_filter.
    split; [|by eapply Hwords]. destruct Hsat as (_ & Hlen & _). by apply Hlen. }
  exists (max (length (all_arcs s1) +
               max_degree (crossword s1) (dom (domains s1))
               * total_size (domains s1))
              (S (size (variables cw)))).
  intros fuel Hfuel.
  destruct (ac3_default_Ok fuel s1) as (b & s2 & Hac3); [done|done|done|lia|].
  assert (crossword s2 = cw) as Hcw2.
  { pose proof (ac3_loop_crossword fuel (all_arcs s1) s1) as H.
    unfold ac3 in Hac3. by rewrite Hac3 in H. }
  assert (never_grows s1 s2) as Hgrows.
  { pose proof (ac3_loop_never_grows fuel (all_arcs s1) s1) as H.
    unfold ac3 in Hac3. by rewrite Hac3 in H. }
  assert (within_domains sol s2) as Hin2.
  { pose proof (ac3_loop_keeps_solution fuel (all_arcs s1) s1 sol) as H.
    unfold ac3 in Hac3. rewrite Hac3 in H.
    apply H; [done|done|by apply satisfies_valid|done]. }
  assert (dom (domains s2) = variables cw) as Hdom2.
  { destruct Hgrows as [Hg _]. by rewrite Hg. }
  pose proof (never_grows_node_consistent _ _ Hgrows Hnode1) as Hnode2.
  destruct (backtrack_total cw (domains s2) Hwf Hdom2 Hnode2 fuel ∅ s2)
    as (r & s' & Hbt & Hfound).
  { done. }
  { split; [set_solver|]. intros x w. by rewrite lookup_empty. }
  { rewrite dom_empty_L, difference_empty_L. lia. }
  destruct (Hfound sol) as [r' ->].
  { split; [done|]. split; [by apply satisfies_valid|done]. }
  { apply map_empty_subseteq. }
  exists r', s'. split.
  { unfold solve. fold s1. by rewrite Hac3. }
  destruct (backtrack_sound _ _ _ _ _ Hbt (consistent_empty s2)) as [Hr Hcons].
  rewrite Hcw2 in Hr. split; [done|].
  apply valid_satisfies; [done|]. rewrite <-Hcw2.
  by apply (consistent_Val _ _ _ Hcons).
Qed.

Lemma solve_complete_witness :
  ∃ n, ∀ fuel, n ≤ fuel →
    ∃ r s', solve fuel (init puzzle_B) = Ok (Some r) s' ∧
      dom r = variables puzzle_B ∧ satisfies puzzle_B r.
Proof.
  apply (solve_complete puzzle_B
           {[ across := "CAT"; down := "ACE" ]}%string well_formed_puzzle_B).
  - apply (bool_decide_unpack _). vm_compute. reflexivity.
  - apply (bool_decide_unpack
             (map_Forall (λ _ w, w ∈ words puzzle_B) _)).
    vm_compute. reflexivity.
  - apply (valid_satisfies _ _ well_formed_puzzle_B).
    apply (consistent_Val (init puzzle_B) _ true); [|reflexivity].
    vm_compute. reflexivity.
Defined.

(** ** [solve] when [ac3] empties a domain *)

Lemma ac3_loop_false fuel queue s s' :
  ac3_loop fuel queue s = Ok false s' →
  fuel ≠ 0 ∧ ∃ x, domains s' !! x = Some ∅.
Proof.
  revert queue s. induction fuel as [|fuel IH]; intros [|[x y] queue] s;
    simpl; try done.
  intros Hloop. split; [done|].
  destruct (revise x y s) as [[] s1| |]; try done.
  - destruct (domain s1 x) as [dx|] eqn:Hdx; [|done].
    destruct (decide (dx = ∅)) as [->|_].
    + injection Hloop as <-. exists x. by apply domain_Val.
    + by apply IH in Hloop as [_ ?].
  - by apply IH in Hloop as [_ ?].
Qed.

(** On scenario D, [ac3] empties a domain and [solve] still enters
    [backtrack]. *)
Lemma solve_does_not_short_circuit : ¬ short_circuits 5 (init puzzle_D).
Proof.
  intros Hshort.
  edestruct Hshort as (s' & Hsolve & Hcalls); [vm_compute; reflexivity|].
  vm_compute in Hsolve. injection Hsolve as <-. discriminate Hcalls.
Qed.

(** C1, amended.  [solve] discards the result of [ac3]: when [ac3] has
    emptied a domain, [solve] still calls [backtrack] on the empty
    assignment, once; that call selects a variable with an empty domain,
    tries no value, and returns [None], which is what [solve] returns. *)
Theorem solve_after_failed_ac3 fuel self s2 :
  dom (domains self) = variables (crossword self) →
  ac3 fuel None (enforce_node_consistency self) = Ok false s2 →
  solve fuel self = Ok None (count_backtrack_call s2) ∧
  backtrack fuel ∅ s2 = Ok None (count_backtrack_call s2) ∧
  backtrack_calls (count_backtrack_call s2) = S (backtrack_calls self).
Proof.
  intros Hdom Hac3.
  pose (s1 := enforce_node_consistency self).
  assert (crossword s2 = crossword self ∧ backtrack_calls s2 = backtrack_calls self
          ∧ dom (domains s2) = variables (crossword self)) as (Hcw & Hcalls & Hdom2).
  { pose proof (ac3_loop_crossword fuel (all_arcs s1) s1) as H1.
    pose proof (ac3_loop_backtrack_calls fuel (all_arcs s1) s1) as H2.
    pose proof (ac3_loop_never_grows fuel (all_arcs s1) s1) as [H3 _].
    destruct (enforce_node_consistency_never_grows self) as [H4 _].
    unfold ac3 in Hac3. fold s1 in Hac3. rewrite Hac3 in *. simpl in *.
    repeat split; [done|done|]. unfold s1 in H3. congruence. }
  unfold ac3 in Hac3. apply ac3_loop_false in Hac3 as Hfalse.
  destruct Hfalse as (Hfuel & x & Hx).
  assert (backtrack fuel ∅ s2 = Ok None (count_backtrack_call s2)) as Hbt.
  { destruct fuel as [|fuel]; [done|]. simpl.
    assert (x ∈ variables (crossword s2)) as Hxvar.
    { rewrite Hcw, <-Hdom2. by eapply elem_of_dom_2. }
    assert (assignment_complete (count_backtrack_call s2) ∅ = false) as ->.
    { apply bool_decide_eq_false. simpl. rewrite dom_empty_L. set_solver. }
    destruct (select_unassigned_variable_total (count_backtrack_call s2) ∅)
      as [r Hr].
    { simpl. by rewrite Hcw, Hdom2. }
    rewrite Hr. apply select_unassigned_variable_Val in Hr. simpl in Hr.
    destruct r as [v|].
    2:{ destruct (Hr x Hxvar) as [? Hnone]. by rewrite lookup_empty in Hnone. }
    destruct Hr as (_ & _ & dv & Hdv & Hmin).
    destruct (Hmin x Hxvar (lookup_empty x)) as (dx & Hdx & Hle).
    assert (dx = ∅) as -> by congruence.
    assert (dv = ∅) as ->.
    { apply leibniz_equiv, size_empty_iff. unfold tuple_le in Hle.
      cbn [fst snd] in Hle. rewrite size_empty in Hle. lia. }
    unfold order_domain_values, domain. simpl. rewrite Hdv. simpl.
    by rewrite elements_empty. }
  split; [|split; [done|simpl; by rewrite Hcalls]].
  unfold solve, ac3. by rewrite Hac3.
Qed.

Lemma solve_after_failed_ac3_witness :
  ∃ s2, ac3 5 None (enforce_node_consistency (init puzzle_D)) = Ok false s2 ∧
    solve 5 (init puzzle_D) = Ok None (count_backtrack_call s2) ∧
    backtrack 5 ∅ s2 = Ok None (count_backtrack_call s2) ∧
    backtrack_calls (count_backtrack_call s2) = 1.
Proof.
  eexists. split; [vm_compute; reflexivity|].
  apply (solve_after_failed_ac3 5 (init puzzle_D)).
  - apply (bool_decide_unpack _). vm_compute. reflexivity.
  - vm_compute. reflexivity.
Defined.

(** * Further properties of the solver *)

(** ** Node consistency and [revise] at the edges *)

(** X1.  Running [enforce_node_consistency] a second time changes nothing. *)
Theorem enforce_node_consistency_idempotent self :
  enforce_node_consistency (enforce_node_consistency self)
  = enforce_node_consistency self.
Proof.
  assert (domains (enforce_node_consistency (enforce_node_consistency self))
          = domains (enforce_node_consistency self)) as Hd.
  { apply map_eq. intros v. rewrite !lookup_enforce_node_consistency.
    destruct (domains self !! v) as [ws|]; simpl; [|done]. f_equal.
    apply set_eq. intros w. rewrite !elem_of_filter. tauto. }
  assert (∀ s1 s2, crossword s1 = crossword s2 → domains s1 = domains s2 →
            backtrack_calls s1 = backtrack_calls s2 → s1 = s2) as Hext.
  { intros [] []. simpl. by intros -> -> ->. }
  by apply Hext.
Qed.

Lemma any_match_Err word i j others e :
  any_match word i j others = Err e → e = IndexError ∧ others ≠ [].
Proof.
  induction others as [|other rest IH]; simpl; [done|].
  unfold index.
  destruct (String.get i word) as [a|]; simpl; [|by intros [= <-]].
  destruct (String.get j other) as [b|]; simpl; [|by intros [= <-]].
  destruct (decide (a = b)); [done|]. intros [? _]%IH. done.
Qed.

Lemma collect_to_remove_no_partner self y i j ws acc :
  domains self !! y = Some ∅ →
  collect_to_remove self y i j ws acc = Val (acc ∪ list_to_set ws).
Proof.
  intros Hy. revert acc. induction ws as [|w ws IH]; intros acc; simpl.
  - f_equal. set_solver.
  - unfold domain. rewrite Hy. simpl. rewrite elements_empty. simpl.
    rewrite IH. f_equal. set_solver.
Qed.

Lemma collect_to_remove_short_word self y dy i j ws acc w :
  domains self !! y = Some dy → dy ≠ ∅ →
  w ∈ ws → String.length w ≤ i →
  collect_to_remove self y i j ws acc = Err IndexError.
Proof.
  intros Hy Hne Hw Hshort. revert acc.
  assert (elements dy ≠ []) as Hel.
  { intros Hnil. apply Hne. by apply elements_empty_inv, leibniz_equiv in Hnil. }
  induction ws as [|w0 ws IH]; intros acc; [by apply elem_of_nil in Hw|].
  simpl. unfold domain. rewrite Hy. simpl.
  destruct (any_match w0 i j (elements dy)) as [b|e] eqn:Hany; simpl.
  - apply elem_of_cons in Hw as [->|Hw]; [|by apply IH].
    exfalso. destruct (elements dy) as [|o os]; [done|]. simpl in Hany.
    apply bind_Val in Hany as (a & Ha%index_Val & _).
    assert (i < String.length w0); [|lia].
    apply get_is_Some. by eexists.
  - by apply any_match_Err in Hany as [-> _].
Qed.

(** X2.  [revise] and missing keys.  When [x] and [y] overlap, [revise(x, y)]
    raises [KeyError] if [x] has no domain, and also if [y] has none while
    the domain of [x] is not empty; in both cases [self] is left as it
    was. *)
Theorem revise_missing_domain self x y i j :
  overlaps_get (crossword self) x y = Some (i, j) →
  (domains self !! x = None → revise x y self = Raise KeyError self) ∧
  (∀ dx, domains self !! x = Some dx → dx ≠ ∅ → domains self !! y = None →
     revise x y self = Raise KeyError self).
Proof.
  intros Hov. unfold revise, unsupported, domain. rewrite Hov. split.
  - by intros ->.
  - intros dx -> Hne Hy. simpl.
    destruct (elements dx) as [|w ws] eqn:Hel.
    { destruct Hne. by apply elements_empty_inv, leibniz_equiv in Hel. }
    simpl. unfold domain. by rewrite Hy.
Qed.

Lemma revise_missing_domain_witness :
  revise across down
    (set_domains (delete across (domains (init puzzle_B))) (init puzzle_B))
  = Raise KeyError
      (set_domains (delete across (domains (init puzzle_B))) (init puzzle_B)).
Proof.
  apply (proj1 (revise_missing_domain
                  (set_domains (delete across (domains (init puzzle_B)))
                     (init puzzle_B)) across down 1 0 ltac:(vm_compute; reflexivity))).
  vm_compute. reflexivity.
Defined.

(** X3.  [revise] and empty domains.  When [x] and [y] overlap: if the domain
    of [x] is empty, [revise(x, y)] returns [False] without looking at the
    domain of [y]; if the domain of [y] is empty and that of [x] is not,
    every word of [x] is removed and [True] is returned, and no word is
    indexed, whatever the overlap indices. *)
Theorem revise_empty_domain self x y i j :
  overlaps_get (crossword self) x y = Some (i, j) →
  (domains self !! x = Some ∅ → revise x y self = Ok false self) ∧
  (∀ dx, domains self !! x = Some dx → dx ≠ ∅ → domains self !! y = Some ∅ →
     revise x y self
     = Ok true (set_domains (<[x := ∅]> (domains self)) self)).
Proof.
  intros Hov. unfold revise, unsupported, domain. rewrite Hov. split.
  - intros ->. simpl. rewrite elements_empty. simpl.
    by destruct (decide ((∅ : gset string) = ∅)).
  - intros dx -> Hne Hy. simpl.
    rewrite (collect_to_remove_no_partner self y i j _ _ Hy). simpl.
    rewrite list_to_set_elements_L, (left_id_L ∅ (∪)).
    destruct (decide (dx = ∅)); [done|].
    by rewrite difference_diag_L.
Qed.

Lemma revise_empty_domain_witness :
  revise across down
    (set_domains (<[down := ∅]> (domains (init puzzle_B))) (init puzzle_B))
  = Ok true
      (set_domains
         (<[across := ∅]> (<[down := ∅]> (domains (init puzzle_B))))
         (init puzzle_B)).
Proof.
  apply (proj2 (revise_empty_domain
                  (set_domains (<[down := ∅]> (domains (init puzzle_B)))
                     (init puzzle_B)) across down 1 0
                  ltac:(vm_compute; reflexivity)) (words puzzle_B)).
  - vm_compute. reflexivity.
  - intros Hempty.
    assert ("CAT"%string ∈ words puzzle_B) as Hin by (vm_compute; set_solver).
    rewrite Hempty in Hin. by apply not_elem_of_empty in Hin.
  - vm_compute. reflexivity.
Defined.

(** X4.  [revise] and index bounds.  When [x] and [y] overlap at [(i, j)], the
    domain of [y] is not empty and some word in the domain of [x] has no
    letter at index [i], [revise(x, y)] raises [IndexError] and leaves
    [self] as it was. *)
Theorem revise_index_error self x y i j dx dy w :
  overlaps_get (crossword self) x y = Some (i, j) →
  domains self !! x = Some dx →
  domains self !! y = Some dy →
  dy ≠ ∅ →
  w ∈ dx → String.length w ≤ i →
  revise x y self = Raise IndexError self.
Proof.
  intros Hov Hx Hy Hne Hw Hshort. unfold revise, unsupported, domain.
  rewrite Hov, Hx. simpl.
  rewrite (collect_to_remove_short_word self y dy i j (elements dx) ∅ w);
    try done.
  by apply elem_of_elements.
Qed.

Lemma revise_index_error_witness :
  revise across down (init (Build_Crossword (variables puzzle_B)
                              {[ "A"; "CAT" ]}%string (overlaps puzzle_B)))
  = Raise IndexError
      (init (Build_Crossword (variables puzzle_B)
               {[ "A"; "CAT" ]}%string (overlaps puzzle_B))).
Proof.
  apply (revise_index_error _ across down 1 0
           {[ "A"; "CAT" ]}%string {[ "A"; "CAT" ]}%string "A"%string).
  - vm_compute. reflexivity.
  - vm_compute. reflexivity.
  - vm_compute. reflexivity.
  - intros Hempty.
    assert ("A"%string ∈ ({[ "A"; "CAT" ]}%string : gset string)) as Hin
      by set_solver.
    rewrite Hempty in Hin. by apply not_elem_of_empty in Hin.
  - set_solver.
  - simpl. lia.
Defined.

Lemma collect_to_remove_each self y i j ws acc r :
  collect_to_remove self y i j ws acc = Val r →
  acc ⊆ r ∧
  ∀ w, w ∈ ws → ∃ dy b, domains self !! y = Some dy ∧
    any_match w i j (elements dy) = Val b ∧ (b = false → w ∈ r).
Proof.
  revert acc r. induction ws as [|w0 ws IH]; simpl; intros acc r.
  { intros [= <-]. split; [done|]. by intros ? ?%elem_of_nil. }
  intros (dy & Hdy%domain_Val & (b & Hb & Hr)%bind_Val)%bind_Val.
  destruct (IH _ _ Hr) as [Hacc Hws]. split.
  { destruct b; set_solver. }
  intros w [->|Hw]%elem_of_cons; [|by apply Hws].
  exists dy, b. repeat (split; [done|]). intros ->. set_solver.
Qed.

Lemma collect_to_remove_all_supported self y dy i j ws acc :
  domains self !! y = Some dy →
  (∀ w, w ∈ ws → any_match w i j (elements dy) = Val true) →
  collect_to_remove self y i j ws acc = Val acc.
Proof.
  intros Hdy. induction ws as [|w0 ws IH]; intros Hall; simpl; [done|].
  unfold domain. rewrite Hdy. simpl. rewrite (Hall w0) by left. simpl.
  apply IH. intros w Hw. apply Hall. by right.
Qed.

(** X5.  [revise] is idempotent: once [revise(x, y)] has returned, for distinct
    [x] and [y], calling it again returns [False] and changes nothing. *)
Theorem revise_idempotent self x y b self' :
  x ≠ y →
  revise x y self = Ok b self' →
  revise x y self' = Ok false self'.
Proof.
  intros Hxy Hrev. unfold revise in Hrev |- *.
  destruct (overlaps_get (crossword self) x y) as [[i j]|] eqn:Hov.
  2:{ injection Hrev as <- <-. by rewrite Hov. }
  destruct (unsupported self x y i j) as [[dx r]|] eqn:Hun; [|done].
  unfold unsupported in Hun.
  apply bind_Val in Hun as (dx0 & Hdx%domain_Val & (r0 & Hr & [= -> ->])%bind_Val).
  destruct (decide (r = ∅)) as [->|Hne]; injection Hrev as <- <-.
  { rewrite Hov. unfold unsupported, domain. rewrite Hdx. simpl. rewrite Hr.
    simpl. by destruct (decide ((∅ : gset string) = ∅)). }
  simpl. rewrite Hov.
  apply collect_to_remove_each in Hr as [_ Heach].
  unfold unsupported, domain. simpl. rewrite lookup_insert_eq. simpl.
  destruct (elements dx) as [|w0 ws0] eqn:Hel.
  { apply elements_empty_inv, leibniz_equiv in Hel. subst dx.
    rewrite difference_disjoint_L by set_solver. rewrite elements_empty. simpl.
    by destruct (decide ((∅ : gset string) = ∅)). }
  destruct (Heach w0) as (dy & _ & Hdy & _); [left|].
  rewrite <-Hel in Heach.
  rewrite (collect_to_remove_all_supported _ y dy i j _ ∅).
  - simpl. by destruct (decide ((∅ : gset string) = ∅)).
  - simpl. by rewrite lookup_insert_ne.
  - intros w [Hw Hnr]%elem_of_elements%elem_of_difference.
    destruct (Heach w) as (dy' & bw & Hdy' & Hbw & Hfalse);
      [by apply elem_of_elements|].
    assert (dy' = dy) as -> by congruence.
    destruct bw; [done|]. destruct Hnr. by apply Hfalse.
Qed.

Lemma revise_idempotent_witness :
  ∃ self', revise across down (enforce_node_consistency (init puzzle_B))
           = Ok true self' ∧
    revise across down self' = Ok false self'.
Proof.
  eexists. split; [vm_compute; reflexivity|].
  apply (revise_idempotent (enforce_node_consistency (init puzzle_B))
           across down true).
  - discriminate.
  - vm_compute. reflexivity.
Defined.

(** ** [ac3]: its value, the solutions it keeps, and running it twice *)

Lemma ac3_loop_true fuel queue s s' :
  ac3_loop fuel queue s = Ok true s' →
  (∀ v ws, domains s !! v = Some ws → ws ≠ ∅) →
  ∀ v ws, domains s' !! v = Some ws → ws ≠ ∅.
Proof.
  revert queue s. induction fuel as [|fuel IH]; intros [|[x y] queue] s;
    simpl; try done; try by intros [= <-].
  destruct (revise_cases x y s) as [e| |i j dx dx' Hov Hdx Hsub _ _]; [done| |].
  - apply IH.
  - unfold domain. simpl. rewrite lookup_insert_eq.
    destruct (decide (dx' = ∅)) as [|Hne]; [done|].
    intros Hloop Hall. apply (IH _ _ Hloop). simpl. intros v ws.
    destruct (decide (x = v)) as [<-|Hxv].
    + rewrite lookup_insert_eq. by intros [= <-].
    + rewrite lookup_insert_ne by done. apply Hall.
Qed.

(** X6.  What the value of [ac3] says.  Started with no empty domain, [ac3]
    returns [False] exactly when it leaves some variable with an empty
    domain. *)
Theorem ac3_false_iff_emptied fuel arcs self b self' :
  (∀ v ws, domains self !! v = Some ws → ws ≠ ∅) →
  ac3 fuel arcs self = Ok b self' →
  (b = false ↔ ∃ v, domains self' !! v = Some ∅).
Proof.
  intros Hall Hac3. unfold ac3 in Hac3. destruct b.
  - split; [done|]. intros [v Hv].
    by destruct (ac3_loop_true _ _ _ _ Hac3 Hall v ∅ Hv).
  - split; [|done]. intros _. by apply ac3_loop_false in Hac3 as [_ ?].
Qed.

Lemma ac3_false_iff_emptied_witness :
  ∃ self', ac3 5 None (enforce_node_consistency (init puzzle_D)) = Ok false self' ∧
    (false = false ↔ ∃ v, domains self' !! v = Some ∅).
Proof.
  eexists. split; [vm_compute; reflexivity|].
  apply (ac3_false_iff_emptied 5 None (enforce_node_consistency (init puzzle_D))).
  - apply (bool_decide_unpack
             (map_Forall (λ _ ws, ws ≠ ∅)
                (domains (enforce_node_consistency (init puzzle_D))))).
    vm_compute. reflexivity.
  - vm_compute. reflexivity.
Defined.

(** X7.  [ac3] removes no word of a solution.  On a well-formed puzzle, if a
    complete assignment satisfies the constraints and each of its words is
    in the domain of its variable, the same holds after [ac3], whatever
    arcs it was given and however it ends; and if the store holds domains
    for the puzzle's variables only, [ac3] does not return [False]. *)
Theorem ac3_keeps_solutions fuel arcs self sol :
  well_formed (crossword self) →
  dom sol = variables (crossword self) →
  satisfies (crossword self) sol →
  within_domains sol self →
  within_domains sol (final_state (ac3 fuel arcs self)) ∧
  (dom (domains self) ⊆ variables (crossword self) →
   ∀ self', ac3 fuel arcs self ≠ Ok false self').
Proof.
  intros Hwf Hsdom Hsat Hin. unfold ac3.
  set (queue := match arcs with None => all_arcs self | Some a => a end).
  pose proof (ac3_loop_keeps_solution fuel queue self sol Hwf Hsdom
                (satisfies_valid _ _ Hsat) Hin) as Hkeep.
  split; [done|]. intros Hdom self' Hfalse. rewrite Hfalse in Hkeep.
  pose proof (ac3_loop_never_grows fuel queue self) as [Hgrows _].
  rewrite Hfalse in Hgrows. simpl in *.
  apply ac3_loop_false in Hfalse as (_ & x & Hx).
  assert (x ∈ dom sol) as [w Hw]%elem_of_dom.
  { rewrite Hsdom. apply Hdom. rewrite <-Hgrows. by eapply elem_of_dom_2. }
  destruct (Hkeep x w Hw) as (ws & Hws & Hin').
  assert (ws = ∅) as -> by congruence. by apply not_elem_of_empty in Hin'.
Qed.

Lemma ac3_keeps_solutions_witness :
  within_domains ({[ across := "CAT"; down := "ACE" ]}%string)
    (final_state (ac3 5 None (enforce_node_consistency (init puzzle_B)))) ∧
  (dom (domains (enforce_node_consistency (init puzzle_B)))
     ⊆ variables puzzle_B →
   ∀ self', ac3 5 None (enforce_node_consistency (init puzzle_B))
            ≠ Ok false self').
Proof.
  apply (ac3_keeps_solutions 5 None (enforce_node_consistency (init puzzle_B))
           {[ across := "CAT"; down := "ACE" ]}%string well_formed_puzzle_B).
  - apply (bool_decide_unpack _). vm_compute. reflexivity.
  - apply (valid_satisfies _ _ well_formed_puzzle_B).
    apply (consistent_Val (init puzzle_B) _ true); [|reflexivity].
    vm_compute. reflexivity.
  - intros v w [[<- <-]|[_ [<- <-]%lookup_singleton_Some]]%lookup_insert_Some.
    + exists (words puzzle_B). split; [vm_compute; reflexivity|].
      simpl. set_solver.
    + exists (words puzzle_B). split; [vm_compute; reflexivity|].
      simpl. set_solver.
Defined.

Lemma ac3_default_pending fuel s s' :
  well_formed (crossword s) →
  ac3 fuel None s = Ok true s' →
  crossword s' = crossword s ∧ pending_or_consistent [] s'.
Proof.
  intros Hwf Hac3.
  set (I := λ queue s1,
         crossword s1 = crossword s ∧ pending_or_consistent queue s1).
  assert (match ac3_loop fuel (all_arcs s) s with
          | Ok true s1 => I [] s1
          | r => ∃ queue', I queue' (final_state r)
          end) as Hinv.
  { apply ac3_loop_invariant.
    - intros x y queue s1 [Hcw HI] Hsup. split; [done|].
      by apply pending_or_consistent_unchanged with x y.
    - intros x y queue s1 i j dx dy dx' [Hcw HI] Hov Hdx Hdy _ Hdx'.
      split; [done|].
      apply pending_or_consistent_pruned with i j dx dy; try done.
      by rewrite Hcw.
    - split; [done|]. intros x y Hx Hy. left. by apply elem_of_all_arcs. }
  unfold ac3 in Hac3. by rewrite Hac3 in Hinv.
Qed.

Lemma ac3_loop_stable fuel queue s :
  well_formed (crossword s) →
  dom (domains s) = variables (crossword s) →
  node_consistent s →
  pending_or_consistent [] s →
  (∀ x y, (x, y) ∈ queue →
     x ∈ dom (domains s) ∧ y ∈ neighbors (crossword s) x) →
  length queue ≤ fuel →
  ac3_loop fuel queue s = Ok true s.
Proof.
  intros Hwf Hdom Hnode Hcons. revert queue.
  induction fuel as [|fuel IH]; intros [|[x y] queue] Hq Hfuel; simpl in *;
    try done; try lia.
  assert (revise x y s = Ok false s) as ->.
  { destruct (Hq x y) as [Hx Hy]; [left|].
    destruct (Hcons x y Hx Hy) as [[]%elem_of_nil|Harc].
    destruct (overlaps_get (crossword s) x y) as [[i j]|] eqn:Hov.
    2:{ unfold revise. by rewrite Hov. }
    apply elem_of_dom in Hx as [dx Hdx].
    assert (is_Some (domains s !! y)) as [dy Hdy].
    { apply elem_of_dom. rewrite Hdom. by apply elem_of_neighbors in Hy as [? _]. }
    destruct (well_formed_overlap _ _ _ _ _ Hwf Hov) as (_ & _ & _ & _ & Hi & Hj).
    destruct (revise_total s x y i j dx dy) as (b & s1 & Hrev); try done.
    { intros w Hw. rewrite (Hnode x dx w); done. }
    { intros w Hw. rewrite (Hnode y dy w); done. }
    pose proof (revise_cases x y s) as Hcases. rewrite Hrev in Hcases.
    inversion Hcases as [|Hall|i' j' dx0 dx' Hov' Hdx0 [_ Hsub] Hdx' _]; subst;
      [done|].
    destruct Hsub. intros w Hw.
    assert (i' = i ∧ j' = j ∧ dx0 = dx) as (-> & -> & ->) by naive_solver.
    apply (Hdx' dy Hdy). split; [done|]. by apply (Harc i j dx dy). }
  apply IH; [|lia]. intros a b Hab. apply Hq. by right.
Qed.

(** X8.  [ac3] is idempotent.  On a well-formed puzzle with a domain for each
    variable and words of the right lengths, once [ac3] has returned
    [True], running it again on all arcs returns [True] and changes
    nothing. *)
Theorem ac3_idempotent fuel self self' :
  well_formed (crossword self) →
  dom (domains self) = variables (crossword self) →
  node_consistent self →
  ac3 fuel None self = Ok true self' →
  ∀ fuel', length (all_arcs self') ≤ fuel' →
    ac3 fuel' None self' = Ok true self'.
Proof.
  intros Hwf Hdom Hnode Hac3 fuel' Hfuel'.
  destruct (ac3_default_pending _ _ _ Hwf Hac3) as [Hcw Hcons].
  pose proof (ac3_loop_never_grows fuel (all_arcs self) self) as Hgrows.
  unfold ac3 in Hac3. rewrite Hac3 in Hgrows. simpl in Hgrows.
  unfold ac3. apply ac3_loop_stable; try done.
  - by rewrite Hcw.
  - destruct Hgrows as [-> _]. by rewrite Hcw.
  - by apply (never_grows_node_consistent self).
  - by intros x y ?%elem_of_all_arcs.
Qed.

Lemma ac3_idempotent_witness :
  ∃ self', ac3 5 None (enforce_node_consistency (init puzzle_B)) = Ok true self' ∧
    ∀ fuel', length (all_arcs self') ≤ fuel' →
      ac3 fuel' None self' = Ok true self'.
Proof.
  eexists. split; [vm_compute; reflexivity|].
  apply (ac3_idempotent 5 (enforce_node_consistency (init puzzle_B)) _
           well_formed_puzzle_B).
  - apply (bool_decide_unpack _). vm_compute. reflexivity.
  - apply enforce_node_consistency_node_consistent.
  - vm_compute. reflexivity.
Defined.

(** X9.  [ac3] returns normally.  On a well-formed puzzle with a domain for
    each variable and words of the right lengths, [ac3] on all arcs raises
    no exception: from some amount of fuel on it returns a Boolean. *)
Theorem ac3_returns_normally self :
  well_formed (crossword self) →
  dom (domains self) = variables (crossword self) →
  node_consistent self →
  ∃ n, ∀ fuel, n ≤ fuel → ∃ b self', ac3 fuel None self = Ok b self'.
Proof.
  intros Hwf Hdom Hnode. eexists. intros fuel Hfuel.
  by apply ac3_default_Ok.
Qed.

Lemma ac3_returns_normally_witness :
  ∃ n, ∀ fuel, n ≤ fuel →
    ∃ b self', ac3 fuel None (enforce_node_consistency (init puzzle_D))
               = Ok b self'.
Proof.
  apply (ac3_returns_normally (enforce_node_consistency (init puzzle_D))).
  - apply (bool_decide_unpack _). vm_compute. reflexivity.
  - apply (bool_decide_unpack _). vm_compute. reflexivity.
  - apply enforce_node_consistency_node_consistent.
Defined.

(** ** The consistency checker and the two heuristics *)

(** X10.  What [consistent] decides.  When [consistent] returns, it returns
    [True] exactly when no two assigned variables share a word, every
    assigned word has the length of its variable, and every assigned
    variable agrees with each of its assigned neighbours at their overlap;
    neighbours without a word impose nothing. *)
Theorem consistent_iff self assignment b :
  consistent self assignment = Val b →
  (b = true ↔
   (∀ x y w, assignment !! x = Some w → assignment !! y = Some w → x = y) ∧
   (∀ x w, assignment !! x = Some w → String.length w = Var.length x) ∧
   (∀ x y i j wx wy,
      assignment !! x = Some wx → assignment !! y = Some wy →
      y ∈ neighbors (crossword self) x →
      overlaps_get (crossword self) x y = Some (i, j) →
      ∃ c, String.get i wx = Some c ∧ String.get j wy = Some c)).
Proof. intros Hb. by rewrite (consistent_Val _ _ _ Hb). Qed.

Lemma consistent_iff_witness :
  false = true ↔
   (∀ x y w, ({[ across := "CAT"; down := "CAT" ]}%string : Assignment) !! x
             = Some w →
      ({[ across := "CAT"; down := "CAT" ]}%string : Assignment) !! y = Some w →
      x = y) ∧
   (∀ x w, ({[ across := "CAT"; down := "CAT" ]}%string : Assignment) !! x
           = Some w → String.length w = Var.length x) ∧
   (∀ x y i j wx wy,
      ({[ across := "CAT"; down := "CAT" ]}%string : Assignment) !! x = Some wx →
      ({[ across := "CAT"; down := "CAT" ]}%string : Assignment) !! y = Some wy →
      y ∈ neighbors (crossword (init puzzle_B)) x →
      overlaps_get (crossword (init puzzle_B)) x y = Some (i, j) →
      ∃ c, String.get i wx = Some c ∧ String.get j wy = Some c).
Proof.
  apply (consistent_iff (init puzzle_B)
           ({[ across := "CAT"; down := "CAT" ]}%string) false).
  vm_compute. reflexivity.
Defined.



(** X12.  [consistent] accepts every part of an assignment it accepts: if it
    returns [True] on an assignment, then on any sub-assignment it returns
    [True] whenever it returns at all.  This is what lets [backtrack] check
    an assignment each time it is extended by one variable. *)
Theorem consistent_sub_assignment self (a a' : Assignment) b :
  a ⊆ a' →
  consistent self a' = Val true →
  consistent self a = Val b →
  b = true.
Proof.
  intros Hsub Ha' Ha. apply (consistent_Val _ _ _ Ha).
  apply valid_subseteq with a'; [done|]. by apply (consistent_Val _ _ _ Ha').
Qed.

Lemma consistent_sub_assignment_witness :
  consistent (init puzzle_B) {[ down := "ACE"%string ]} = Val true ∧ true = true.
Proof.
  split; [vm_compute; reflexivity|].
  apply (consistent_sub_assignment (init puzzle_B) {[ down := "ACE"%string ]}
           {[ across := "CAT"; down := "ACE" ]}%string true).
  - apply insert_subseteq. vm_compute. reflexivity.
  - vm_compute. reflexivity.
  - vm_compute. reflexivity.
Defined.

Lemma mapE_Err_KeyError {A B} (f : A → E B) l x :
  (∀ y e, f y = Err e → e = KeyError) →
  x ∈ l → f x = Err KeyError →
  mapE f l = Err KeyError.
Proof.
  intros Hkey Hx Hfx. induction l as [|y l IH]; [by apply elem_of_nil in Hx|].
  simpl. destruct (f y) as [b|e] eqn:Hy; simpl.
  - apply elem_of_cons in Hx as [->|Hx]; [congruence|]. by rewrite IH.
  - by rewrite (Hkey y e Hy).
Qed.

(** X13.  When [select_unassigned_variable] finds nothing and when it fails.
    If it returns, it returns [None] exactly when every variable of the
    puzzle is assigned.  If some unassigned variable has no domain, it
    raises [KeyError]. *)
Theorem select_unassigned_variable_none self assignment :
  (∀ r, select_unassigned_variable self assignment = Val r →
     (r = None ↔
      ∀ u, u ∈ variables (crossword self) → is_Some (assignment !! u))) ∧
  (∀ u, u ∈ variables (crossword self) → assignment !! u = None →
     domains self !! u = None →
     select_unassigned_variable self assignment = Err KeyError).
Proof.
  split.
  - intros r Hr. apply select_unassigned_variable_Val in Hr.
    destruct r as [v|]; [|done]. split; [done|].
    intros Hall. destruct Hr as (Hv & Hav & _).
    destruct (Hall v Hv) as [? ?]. congruence.
  - intros u Hu Hau Hdu. unfold select_unassigned_variable, sorted.
    rewrite (mapE_Err_KeyError _ _ u); [done| | |].
    + intros y e. unfold select_key, domain.
      destruct (domains self !! y); simpl; [done|]. by intros [= <-].
    + apply list_elem_of_filter. by rewrite elem_of_elements.
    + unfold select_key, domain. by rewrite Hdu.
Qed.

Lemma select_unassigned_variable_none_witness :
  select_unassigned_variable
    (set_domains (delete across (domains (init puzzle_B))) (init puzzle_B)) ∅
  = Err KeyError.
Proof.
  apply (proj2 (select_unassigned_variable_none
                  (set_domains (delete across (domains (init puzzle_B)))
                     (init puzzle_B)) ∅) across).
  - simpl. set_solver.
  - apply lookup_empty.
  - vm_compute. reflexivity.
Defined.

Section sorted_order.
Context {K A : Type} (le : K → K → Prop) `{!∀ a b, Decision (le a b)}.
Context (le_total : ∀ a b, le a b ∨ le b a)
        (le_trans : ∀ a b c, le a b → le b c → le a c).

Lemma insert_keyed_StronglySorted (x : K * A) l :
  StronglySorted (λ p q, le p.1 q.1) l →
  StronglySorted (λ p q, le p.1 q.1) (insert_keyed le x l).
Proof.
  induction 1 as [|y l Hl IH Hy]; simpl; [repeat constructor|].
  destruct (decide (le x.1 y.1)) as [Hxy|Hxy].
  - constructor; [by constructor|]. constructor; [done|].
    eapply Forall_impl; [exact Hy|]. intros z Hz. by eapply le_trans.
  - constructor; [done|].
    rewrite (insert_keyed_Permutation le x l). constructor; [|done].
    by destruct (le_total x.1 y.1).
Qed.

Lemma sort_keyed_StronglySorted (l : list (K * A)) :
  StronglySorted (λ p q, le p.1 q.1) (sort_keyed le l).
Proof.
  induction l as [|x l IH]; simpl; [constructor|].
  by apply insert_keyed_StronglySorted.
Qed.

Lemma sorted_ascending (key : A → E K) l r :
  sorted le key l = Val r →
  ∃ keys, Forall2 (λ x k, key x = Val k) r keys ∧ StronglySorted le keys.
Proof.
  unfold sorted. intros (keyed & Hkeyed%mapE_Val & [= <-])%bind_Val.
  assert (Forall (λ p, key p.2 = Val p.1) keyed) as Hkeys.
  { clear -Hkeyed. induction Hkeyed as [|x p l keyed Hp _ IH]; [done|].
    apply bind_Val in Hp as (k & Hk & [= <-]). by constructor. }
  rewrite <-(sort_keyed_Permutation le keyed) in Hkeys.
  pose proof (sort_keyed_StronglySorted keyed) as Hsorted.
  exists (sort_keyed le keyed).*1.
  induction (sort_keyed le keyed) as [|[k x] rest IH]; simpl; [by repeat constructor|].
  apply Forall_cons in Hkeys as [Hk Hrest].
  apply StronglySorted_cons in Hsorted as [Hle Hsorted].
  destruct (IH Hrest Hsorted) as [IH1 IH2].
  split; [by constructor|]. constructor; [done|].
  apply Forall_fmap. eapply Forall_impl; [exact Hle|]. done.
Qed.
End sorted_order.

(** X14.  [order_domain_values] returns the domain, least constraining value
    first: when it returns, its result lists each word of the domain of
    [var] exactly once, and the conflict counts of the words listed never
    decrease along the list. *)
Theorem order_domain_values_ascending self var assignment values :
  order_domain_values self var assignment = Val values →
  ∃ d counts,
    domains self !! var = Some d ∧
    values ≡ₚ elements d ∧
    Forall2 (λ value n, count_conflicts self var assignment value = Val n)
      values counts ∧
    StronglySorted le counts.
Proof.
  unfold order_domain_values.
  intros (d & Hd%domain_Val & Hsorted)%bind_Val.
  destruct (sorted_ascending le Nat.le_ge_cases Nat.le_trans _ _ _ Hsorted)
    as (counts & Hcounts & Hasc).
  apply (sorted_Val le Nat.le_ge_cases Nat.le_trans) in Hsorted as [Hperm _].
  by exists d, counts.
Qed.

Lemma order_domain_values_ascending_witness :
  ∃ d counts,
    domains (enforce_node_consistency (init puzzle_B)) !! across = Some d ∧
    ["CAT"; "ACE"; "TIE"]%string ≡ₚ elements d ∧
    Forall2 (λ value n,
       count_conflicts (enforce_node_consistency (init puzzle_B)) across ∅ value
       = Val n) ["CAT"; "ACE"; "TIE"]%string counts ∧
    StronglySorted le counts.
Proof.
  apply (order_domain_values_ascending
           (enforce_node_consistency (init puzzle_B)) across ∅).
  vm_compute. reflexivity.
Defined.

(** ** [count_conflicts] in closed form *)

Lemma count_in_domain_Val value i j ws count n :
  count_in_domain value i j ws count = Val n →
  n = count + conflicts_in value i j ws.
Proof.
  unfold conflicts_in. revert count n.
  induction ws as [|w ws IH]; simpl; intros count n.
  { intros [= <-]. lia. }
  intros (a & Ha%index_Val & (b & Hb%index_Val & Hn)%bind_Val)%bind_Val.
  apply IH in Hn as ->. rewrite filter_cons.
  destruct (decide (a ≠ b)) as [Hne|Heq%dec_stable].
  - rewrite decide_True; [simpl; lia|].
    intros (c & ? & ?). congruence.
  - rewrite decide_False; [lia|]. intros Hnot. apply Hnot. exists a.
    split; [done|congruence].
Qed.

Lemma count_over_neighbors_Val self var assignment value ns count n :
  count_over_neighbors self var assignment value ns count = Val n →
  n = count + sum_list_with (neighbor_conflicts self var assignment value) ns.
Proof.
  revert count n. induction ns as [|nb ns IH]; simpl; intros count n.
  { intros [= <-]. lia. }
  unfold neighbor_conflicts at 1.
  destruct (assignment !! nb); [intros ->%IH; lia|].
  destruct (overlaps_get (crossword self) var nb) as [[i j]|];
    [|intros ->%IH; lia].
  intros (d & Hd%domain_Val & (c & Hc%count_in_domain_Val & Hn)%bind_Val)%bind_Val.
  rewrite Hd. apply IH in Hn as ->. lia.
Qed.

(** X15.  What [count_conflicts] counts.  When it returns, its value is the
    number of pairs of an unassigned neighbour of [var] that overlaps it
    and a word in that neighbour's domain whose letter at the overlap
    differs from the letter of [value]; assigned neighbours add nothing. *)
Theorem count_conflicts_counts self var assignment value n :
  count_conflicts self var assignment value = Val n →
  n = sum_list_with (neighbor_conflicts self var assignment value)
        (elements (neighbors (crossword self) var)).
Proof. unfold count_conflicts. by intros ->%count_over_neighbors_Val. Qed.

Lemma count_conflicts_counts_witness :
  2 = sum_list_with
        (neighbor_conflicts (enforce_node_consistency (init puzzle_B)) across ∅
           "CAT")
        (elements (neighbors
           (crossword (enforce_node_consistency (init puzzle_B))) across)).
Proof.
  apply (count_conflicts_counts (enforce_node_consistency (init puzzle_B))
           across ∅ "CAT" 2).
  vm_compute. reflexivity.
Defined.

(** ** Backtracking search: what it returns *)

Lemma order_domain_values_Val self var assignment values :
  order_domain_values self var assignment = Val values →
  ∃ d, domains self !! var = Some d ∧ ∀ w, w ∈ values ↔ w ∈ d.
Proof.
  unfold order_domain_values.
  intros (d & Hd%domain_Val & Hsorted)%bind_Val.
  apply (sorted_Val le Nat.le_ge_cases Nat.le_trans) in Hsorted as [Hperm _].
  exists d. split; [done|]. intros w. by rewrite Hperm, elem_of_elements.
Qed.

(** A successful loop over the values stems from one of them. *)
Lemma try_values_Some rec var (assignment : Assignment) values s r s' :
  (∀ a s, only_counts s (final_state (rec a s))) →
  try_values rec var assignment values s = Ok (Some r) s' →
  ∃ value s1, value ∈ values ∧ only_counts s s1 ∧
    rec (<[var := value]> assignment) s1 = Ok (Some r) s'.
Proof.
  intros Hsame. revert s. induction values as [|value values IH]; intros s;
    simpl; [done|].
  assert (∀ s1, only_counts s s1 →
            try_values rec var assignment values s1 = Ok (Some r) s' →
            ∃ value0 s2, value0 ∈ value :: values ∧ only_counts s s2 ∧
              rec (<[var := value0]> assignment) s2 = Ok (Some r) s') as IH'.
  { intros s1 Hs1 (v & s2 & ? & ? & ?)%IH. exists v, s2.
    split; [by right|]. split; [|done]. by eapply only_counts_trans. }
  destruct (consistent s (<[var := value]> assignment)) as [[]|];
    [|by apply IH'|done].
  pose proof (Hsame (<[var := value]> assignment) s) as Hs.
  destruct (rec (<[var := value]> assignment) s) as [[r'|] s1| |] eqn:Hrec;
    simpl in *; try done.
  - intros [= -> ->]. exists value, s. split; [left|]. by split.
  - by apply IH'.
Qed.

(** An unsuccessful loop has rejected every value. *)
Lemma try_values_None rec var (assignment : Assignment) values s s' :
  (∀ a s, only_counts s (final_state (rec a s))) →
  try_values rec var assignment values s = Ok None s' →
  ∀ value, value ∈ values →
    ∃ s1, only_counts s s1 ∧
      (consistent s1 (<[var := value]> assignment) = Val false ∨
       ∃ s2, rec (<[var := value]> assignment) s1 = Ok None s2).
Proof.
  intros Hsame. revert s. induction values as [|value values IH]; intros s;
    simpl; [by intros _ ? ?%elem_of_nil|].
  assert (∀ s1, only_counts s s1 →
            try_values rec var assignment values s1 = Ok None s' →
            ∀ value0, value0 ∈ values →
              ∃ s2, only_counts s s2 ∧
                (consistent s2 (<[var := value0]> assignment) = Val false ∨
                 ∃ s3, rec (<[var := value0]> assignment) s2 = Ok None s3))
    as IH'.
  { intros s1 Hs1 Htry v Hv. destruct (IH _ Htry v Hv) as (s2 & ? & ?).
    exists s2. split; [|done]. by eapply only_counts_trans. }
  destruct (consistent s (<[var := value]> assignment)) as [[]|] eqn:Hcons;
    [| |done].
  - pose proof (Hsame (<[var := value]> assignment) s) as Hs.
    destruct (rec (<[var := value]> assignment) s) as [[r'|] s1| |] eqn:Hrec;
      simpl in *; try done.
    intros Htry v [->|Hv]%elem_of_cons; [|by apply (IH' s1)].
    exists s. split; [done|]. right. by exists s1.
  - intros Htry v [->|Hv]%elem_of_cons; [|by apply (IH' s)].
    exists s. split; [done|]. by left.
Qed.

Lemma backtrack_extends fuel assignment s r s' :
  backtrack fuel assignment s = Ok (Some r) s' →
  assignment ⊆ r ∧
  ∀ v w, r !! v = Some w →
    assignment !! v = Some w ∨
    (assignment !! v = None ∧ ∃ d, domains s !! v = Some d ∧ w ∈ d).
Proof.
  revert assignment s r s'.
  induction fuel as [|fuel IH]; intros assignment s r s'; simpl; [done|].
  destruct (assignment_complete _ _).
  { intros [= -> _]. split; [done|]. by left. }
  destruct (select_unassigned_variable _ _) as [[var|]|] eqn:Hsel; [|done|done].
  destruct (order_domain_values _ _ _) as [values|] eqn:Hval; [|done].
  apply select_unassigned_variable_Val in Hsel as (_ & Havar & _).
  apply order_domain_values_Val in Hval as (d & Hd & Hvalues). simpl in Hd.
  intros (value & s1 & Hvalue%Hvalues & [_ Hs1] & Hrec)%try_values_Some;
    [|apply backtrack_only_counts].
  apply IH in Hrec as [Hsub Hfrom]. simpl in Hs1. split.
  - etransitivity; [|exact Hsub]. by apply insert_subseteq.
  - intros v w Hv. destruct (Hfrom v w Hv) as [Hins|[Hins Hdom]].
    + apply lookup_insert_Some in Hins as [[<- <-]|[_ ?]]; [|by left].
      right. split; [done|]. by exists d.
    + apply lookup_insert_None in Hins as [? _]. right. split; [done|].
      by rewrite <-Hs1.
Qed.

(** X16.  [backtrack] only reads the solver.  However a call ends, the puzzle
    description and every domain are as they were before it. *)
Theorem backtrack_reads_only fuel assignment self :
  crossword (final_state (backtrack fuel assignment self)) = crossword self ∧
  domains (final_state (backtrack fuel assignment self)) = domains self.
Proof. apply backtrack_only_counts. Qed.

(** X17.  [backtrack] extends the assignment it is given.  An assignment that
    [backtrack] returns contains the one it was called with, and each word
    it adds is taken from the domain of the variable it is given to. *)
Theorem backtrack_extends_assignment fuel assignment self r self' :
  backtrack fuel assignment self = Ok (Some r) self' →
  assignment ⊆ r ∧
  ∀ v w, r !! v = Some w → assignment !! v = None →
    ∃ d, domains self !! v = Some d ∧ w ∈ d.
Proof.
  intros [Hsub Hfrom]%backtrack_extends. split; [done|].
  intros v w Hv Ha. destruct (Hfrom v w Hv) as [?|[_ ?]]; [congruence|done].
Qed.

Lemma backtrack_extends_assignment_witness :
  ∃ r self',
    backtrack 5 {[ down := "ACE"%string ]}
      (enforce_node_consistency (init puzzle_B)) = Ok (Some r) self' ∧
    {[ down := "ACE"%string ]} ⊆ r ∧
    ∀ v w, r !! v = Some w →
      ({[ down := "ACE"%string ]} : Assignment) !! v = None →
      ∃ d, domains (enforce_node_consistency (init puzzle_B)) !! v = Some d ∧
        w ∈ d.
Proof.
  eexists _, _. split; [vm_compute; reflexivity|].
  eapply (backtrack_extends_assignment 5).
  vm_compute. reflexivity.
Defined.

Lemma backtrack_None fuel assignment s s' sol :
  backtrack fuel assignment s = Ok None s' →
  dom sol = variables (crossword s) →
  valid (crossword s) sol →
  within_domains sol s →
  ¬ assignment ⊆ sol.
Proof.
  intros Hbt Hsdom Hvalid. revert assignment s s' Hbt Hsdom Hvalid.
  induction fuel as [|fuel IH]; intros assignment s s'; simpl; [done|].
  destruct (assignment_complete _ _); [done|].
  destruct (select_unassigned_variable _ _) as [[var|]|] eqn:Hsel; [|done|done].
  destruct (order_domain_values _ _ _) as [values|] eqn:Hval; [|done].
  apply select_unassigned_variable_Val in Hsel as (Hvar & Havar & _).
  apply order_domain_values_Val in Hval as (d & Hd & Hvalues).
  simpl in Hd, Hvar.
  intros Htry Hsdom Hvalid Hin Hsub.
  assert (is_Some (sol !! var)) as [w Hw].
  { apply elem_of_dom. by rewrite Hsdom. }
  destruct (Hin var w Hw) as (d' & Hd' & Hwd).
  assert (d' = d) as -> by congruence.
  assert (<[var := w]> assignment ⊆ sol) as Hsub' by by apply insert_subseteq_l.
  destruct (try_values_None _ _ _ _ _ _ (backtrack_only_counts fuel) Htry w)
    as (s1 & [Hcw Hdom] & [Hcons|[s2 Hrec]]); [by apply Hvalues| |].
  - apply consistent_Val in Hcons. simpl in Hcw. rewrite Hcw in Hcons.
    assert (false = true); [|done].
    apply Hcons. by apply valid_subseteq with sol.
  - simpl in Hcw, Hdom. apply (IH _ _ _ Hrec); try done.
    + by rewrite Hcw.
    + by rewrite Hcw.
    + intros v u Hv. rewrite Hdom. by apply Hin.
Qed.

(** X18.  Failure of [backtrack] is justified.  When [backtrack] returns [None]
    on an assignment, no complete assignment that satisfies the
    constraints and takes each word from the domain of its variable
    extends it. *)
Theorem backtrack_failure_sound fuel assignment self self' sol :
  backtrack fuel assignment self = Ok None self' →
  dom sol = variables (crossword self) →
  satisfies (crossword self) sol →
  within_domains sol self →
  ¬ assignment ⊆ sol.
Proof.
  intros Hbt Hsdom Hsat. apply (backtrack_None _ _ _ _ _ Hbt Hsdom).
  by apply satisfies_valid.
Qed.

Lemma backtrack_failure_sound_witness :
  (∃ self', backtrack 5 {[ across := "TIE"%string ]}
              (enforce_node_consistency (init puzzle_B)) = Ok None self') ∧
  ¬ ({[ across := "TIE"%string ]} : Assignment)
    ⊆ {[ across := "CAT"; down := "ACE" ]}%string.
Proof.
  split; [eexists; vm_compute; reflexivity|].
  eapply (backtrack_failure_sound 5 {[ across := "TIE"%string ]}
            (enforce_node_consistency (init puzzle_B))).
  - vm_compute. reflexivity.
  - apply (bool_decide_unpack _). vm_compute. reflexivity.
  - apply (valid_satisfies _ _ well_formed_puzzle_B).
    apply (consistent_Val (init puzzle_B) _ true); [|reflexivity].
    vm_compute. reflexivity.
  - intros v w [[<- <-]|[_ [<- <-]%lookup_singleton_Some]]%lookup_insert_Some.
    + exists (words puzzle_B). split; [vm_compute; reflexivity|].
      simpl. set_solver.
    + exists (words puzzle_B). split; [vm_compute; reflexivity|].
      simpl. set_solver.
Defined.

(** ** [solve] as a whole *)

Lemma enforce_node_consistency_keeps_solution sol s :
  (∀ v w, sol !! v = Some w → String.length w = Var.length v) →
  within_domains sol s →
  within_domains sol (enforce_node_consistency s).
Proof.
  intros Hlen Hin v w Hv. destruct (Hin v w Hv) as (ws & Hws & Hw).
  rewrite lookup_enforce_node_consistency, Hws. simpl.
  eexists. split; [done|]. apply elem_of_filter. split; [|done].
  by apply Hlen.
Qed.

(** X19.  [backtrack] returns normally, within a bounded depth.  On a
    well-formed puzzle with a domain for each variable and words of the
    right lengths, called on an assignment over the puzzle's variables whose
    words have the right lengths, [backtrack] raises no exception and needs
    no more nested calls than there are unassigned variables, plus one. *)
Theorem backtrack_returns_normally fuel assignment self :
  well_formed (crossword self) →
  dom (domains self) = variables (crossword self) →
  node_consistent self →
  dom assignment ⊆ variables (crossword self) →
  (∀ x w, assignment !! x = Some w → String.length w = Var.length x) →
  size (variables (crossword self) ∖ dom assignment) < fuel →
  ∃ r self', backtrack fuel assignment self = Ok r self'.
Proof.
  intros Hwf Hdom Hnode Hsub Hlen Hfuel.
  destruct (backtrack_total (crossword self) (domains self) Hwf Hdom Hnode
              fuel assignment self) as (r & s' & Hbt & _); try done.
  by exists r, s'.
Qed.

Lemma backtrack_returns_normally_witness :
  ∃ r self', backtrack 3 ∅ (enforce_node_consistency (init puzzle_B))
             = Ok r self'.
Proof.
  apply (backtrack_returns_normally 3 ∅
           (enforce_node_consistency (init puzzle_B)) well_formed_puzzle_B).
  - apply (bool_decide_unpack _). vm_compute. reflexivity.
  - apply enforce_node_consistency_node_consistent.
  - apply (bool_decide_unpack _). vm_compute. reflexivity.
  - intros x w. by rewrite lookup_empty.
  - vm_compute. lia.
Defined.

(** X20.  [solve] returns normally.  On a well-formed puzzle, with a domain for
    each variable, [solve] raises no exception: from some amount of fuel on
    it returns an assignment or [None]. *)
Theorem solve_returns_normally self :
  well_formed (crossword self) →
  dom (domains self) = variables (crossword self) →
  ∃ n, ∀ fuel, n ≤ fuel → ∃ r self', solve fuel self = Ok r self'.
Proof.
  intros Hwf Hdom.
  pose (s1 := enforce_node_consistency self).
  assert (dom (domains s1) = variables (crossword s1)) as Hdom1.
  { destruct (enforce_node_consistency_never_grows self) as [Hg _].
    unfold s1. by rewrite Hg. }
  pose proof (enforce_node_consistency_node_consistent self) as Hnode1.
  exists (max (length (all_arcs s1) +
               max_degree (crossword s1) (dom (domains s1))
               * total_size (domains s1))
              (S (size (variables (crossword self))))).
  intros fuel Hfuel.
  destruct (ac3_default_Ok fuel s1) as (b & s2 & Hac3); [done|done|done|lia|].
  pose proof (ac3_loop_crossword fuel (all_arcs s1) s1) as Hcw2.
  pose proof (ac3_loop_never_grows fuel (all_arcs s1) s1) as Hgrows.
  unfold ac3 in Hac3. rewrite Hac3 in Hcw2, Hgrows. simpl in Hcw2, Hgrows.
  assert (well_formed (crossword s2)) as Hwf2 by by rewrite Hcw2.
  assert (dom (domains s2) = variables (crossword s2)) as Hdom2.
  { destruct Hgrows as [Hg _]. by rewrite Hg, Hcw2. }
  pose proof (never_grows_node_consistent s1 s2 Hgrows Hnode1) as Hnode2.
  destruct (backtrack_total (crossword s2) (domains s2) Hwf2 Hdom2 Hnode2
              fuel ∅ s2) as (r & s' & Hbt & _).
  - done.
  - split; [set_solver|]. intros x w. by rewrite lookup_empty.
  - rewrite dom_empty_L, difference_empty_L, Hcw2. lia.
  - exists r, s'. unfold solve, ac3. fold s1. by rewrite Hac3.
Qed.

Lemma solve_returns_normally_witness :
  ∃ n, ∀ fuel, n ≤ fuel → ∃ r self', solve fuel (init puzzle_D) = Ok r self'.
Proof.
  apply (solve_returns_normally (init puzzle_D)).
  - apply (bool_decide_unpack _). vm_compute. reflexivity.
  - apply (bool_decide_unpack _). vm_compute. reflexivity.
Defined.

(** X21.  Failure of [solve] is justified.  On a well-formed puzzle, when
    [solve] returns [None], no complete assignment satisfies the
    constraints with each word taken from the domain of its variable. *)
Theorem solve_failure_sound fuel self self' sol :
  well_formed (crossword self) →
  solve fuel self = Ok None self' →
  dom sol = variables (crossword self) →
  satisfies (crossword self) sol →
  ¬ within_domains sol self.
Proof.
  intros Hwf Hsolve Hsdom Hsat Hin.
  apply solve_Ok in Hsolve as (b & s2 & Hac3 & Hbt & Hcw).
  pose proof (ac3_loop_keeps_solution fuel
                (all_arcs (enforce_node_consistency self))
                (enforce_node_consistency self) sol Hwf Hsdom
                (satisfies_valid _ _ Hsat)) as Hkeep.
  unfold ac3 in Hac3. rewrite Hac3 in Hkeep. simpl in Hkeep.
  apply (backtrack_None _ _ _ _ sol Hbt); rewrite ?Hcw; try done.
  - by apply satisfies_valid.
  - apply Hkeep. apply enforce_node_consistency_keeps_solution; [|done].
    by destruct Hsat as (_ & ? & _).
  - apply map_empty_subseteq.
Qed.

Lemma solve_failure_sound_witness :
  (∃ self', solve 5 (init puzzle_D) = Ok None self') ∧
  ¬ within_domains ({[ across2 := "AB"; down2 := "XA" ]}%string)
      (init puzzle_D).
Proof.
  assert (well_formed puzzle_D) as Hwf.
  { apply (bool_decide_unpack _). vm_compute. reflexivity. }
  split; [eexists; vm_compute; reflexivity|].
  eapply (solve_failure_sound 5 (init puzzle_D) _ _ Hwf).
  - vm_compute. reflexivity.
  - apply (bool_decide_unpack _). vm_compute. reflexivity.
  - apply (valid_satisfies _ _ Hwf).
    apply (consistent_Val (init puzzle_D) _ true); [|reflexivity].
    vm_compute. reflexivity.
Defined.

(** X22.  [solve] uses the words it was given.  Every word of an assignment
    that [solve] returns was in the domain of its variable when [solve]
    was called; right after [__init__], that is the word list. *)
Theorem solve_words_from_domains fuel self r self' :
  solve fuel self = Ok (Some r) self' →
  ∀ v w, r !! v = Some w → ∃ d, domains self !! v = Some d ∧ w ∈ d.
Proof.
  intros (b & s2 & Hac3 & Hbt & _)%solve_Ok v w Hv.
  apply backtrack_extends in Hbt as [_ Hfrom].
  destruct (Hfrom v w Hv) as [Hempty|(_ & d2 & Hd2 & Hw)];
    [by rewrite lookup_empty in Hempty|].
  pose proof (ac3_loop_never_grows fuel
                (all_arcs (enforce_node_consistency self))
                (enforce_node_consistency self)) as [_ Hsub].
  unfold ac3 in Hac3. rewrite Hac3 in Hsub. simpl in Hsub.
  destruct (Hsub v d2 Hd2) as (d1 & Hd1 & Hincl).
  destruct (enforce_node_consistency_never_grows self) as [_ Hsub0].
  destruct (Hsub0 v d1 Hd1) as (d & Hd & Hincl0).
  exists d. split; [done|]. by apply Hincl0, Hincl.
Qed.

Lemma solve_words_from_domains_witness :
  ∃ r self', solve 5 (init puzzle_B) = Ok (Some r) self' ∧
    ∀ v w, r !! v = Some w →
      ∃ d, domains (init puzzle_B) !! v = Some d ∧ w ∈ d.
Proof.
  eexists _, _. split; [vm_compute; reflexivity|].
  eapply (solve_words_from_domains 5 (init puzzle_B)).
  vm_compute. reflexivity.
Defined.

(** ** [letter_grid] *)


Lemma write_letters_apply variable cs k letters :
  write_letters variable cs k letters
  = apply_writes (writes_from variable cs k) letters.
Proof.
  revert k letters. induction cs as [|c cs IH]; intros k letters; simpl; [done|].
  destruct (set_letter _ _ _ _); simpl; [|done]. apply IH.
Qed.

Lemma apply_writes_app ws1 ws2 letters :
  apply_writes (ws1 ++ ws2) letters
  = apply_writes ws1 letters ≫= apply_writes ws2.
Proof.
  revert letters. induction ws1 as [|[[i j] c] ws1 IH]; intros letters; simpl;
    [done|].
  destruct (set_letter letters i j c); simpl; [|done]. apply IH.
Qed.

Lemma write_words_apply items letters :
  write_words items letters = apply_writes (writes_of items) letters.
Proof.
  unfold writes_of. revert letters.
  induction items as [|[variable word] items IH]; intros letters; simpl; [done|].
  rewrite apply_writes_app, write_letters_apply.
  destruct (apply_writes _ letters); simpl; [|done]. apply IH.
Qed.

Lemma elem_of_writes_from variable cs k i j c :
  (i, j, c) ∈ writes_from variable cs k ↔
  ∃ n, cs !! n = Some c ∧ cell_of variable (k + n) = (i, j).
Proof.
  revert k. induction cs as [|c0 cs IH]; intros k; simpl.
  { split; [by intros ?%elem_of_nil|]. by intros (? & ? & _). }
  rewrite elem_of_cons, IH. split.
  - intros [Heq|(n & Hn & Hcell)].
    + assert ((i, j) = cell_of variable k ∧ c = c0) as [Hcell ->].
      { by inversion Heq. }
      exists 0. split; [done|]. by rewrite Nat.add_0_r.
    + exists (S n). split; [done|]. by rewrite <-Nat.add_succ_comm.
  - intros ([|n] & Hn & Hcell).
    + left. simpl in Hn. injection Hn as <-. rewrite Nat.add_0_r in Hcell.
      by rewrite Hcell.
    + right. exists n. split; [done|]. by rewrite Nat.add_succ_comm.
Qed.

Lemma list_ascii_lookup (w : string) (k : nat) :
  String.list_ascii_of_string w !! k = String.get k w.
Proof.
  revert k. induction w as [|c w IH]; intros [|k]; simpl; auto.
Qed.

Lemma elem_of_writes_of (assignment : Assignment) i j c :
  (i, j, c) ∈ writes_of (map_to_list assignment) ↔
  ∃ v w k, assignment !! v = Some w ∧ String.get k w = Some c ∧
    cell_of v k = (i, j).
Proof.
  unfold writes_of. rewrite list_elem_of_bind. split.
  - intros ([v w] & (k & Hk & Hcell)%elem_of_writes_from & Hvw%elem_of_map_to_list).
    exists v, w, k. simpl in *. by rewrite <-list_ascii_lookup.
  - intros (v & w & k & Hv & Hk & Hcell). exists (v, w). split.
    + apply elem_of_writes_from. exists k. simpl.
      by rewrite list_ascii_lookup.
    + by apply elem_of_map_to_list.
Qed.

Lemma py_index_Val n i r :
  py_index n i = Val r →
  r < n ∧ (- Z.of_nat n ≤ i < Z.of_nat n)%Z ∧ ((0 ≤ i)%Z → r = Z.to_nat i).
Proof.
  unfold py_index. repeat case_decide; intros [= <-]; lia.
Qed.

Lemma py_index_Err n i e :
  py_index n i = Err e →
  e = IndexError ∧ ¬ (- Z.of_nat n ≤ i < Z.of_nat n)%Z.
Proof.
  unfold py_index. repeat case_decide; intros [= <-]. split; [done|lia].
Qed.

Lemma py_index_inside n (a : nat) :
  a < n → py_index n (Z.of_nat a) = Val a.
Proof.
  intros Ha. unfold py_index. rewrite decide_True by lia. by rewrite Nat2Z.id.
Qed.

Lemma set_letter_Val h w letters i j c letters' :
  has_shape h w letters →
  set_letter letters i j c = Val letters' →
  has_shape h w letters' ∧
  (- Z.of_nat h ≤ i < Z.of_nat h)%Z ∧ (- Z.of_nat w ≤ j < Z.of_nat w)%Z.
Proof.
  intros [Hh Hw]. unfold set_letter.
  intros (r & (Hr & Hi & _)%py_index_Val & Hset)%bind_Val.
  destruct (letters !! r) as [row|] eqn:Hrow; [|done].
  apply bind_Val in Hset as (q & (Hq & Hj & _)%py_index_Val & [= <-]).
  assert (length row = w) as Hlen.
  { rewrite Forall_forall in Hw. apply Hw. by eapply list_elem_of_lookup_2. }
  rewrite Hh in Hi. rewrite Hlen in Hj. split; [|done]. split.
  - by rewrite length_insert.
  - apply Forall_insert; [done|]. by rewrite length_insert.
Qed.

Lemma set_letter_Err letters i j c e h w :
  has_shape h w letters →
  set_letter letters i j c = Err e →
  e = IndexError ∧
  ¬ ((- Z.of_nat h ≤ i < Z.of_nat h)%Z ∧ (- Z.of_nat w ≤ j < Z.of_nat w)%Z).
Proof.
  intros [Hh Hw]. unfold set_letter.
  destruct (py_index (length letters) i) as [r|e'] eqn:Hr; simpl.
  2:{ intros [= <-]. apply py_index_Err in Hr as [-> Hr]. split; [done|].
      rewrite Hh in Hr. tauto. }
  destruct (letters !! r) as [row|] eqn:Hrow.
  2:{ apply py_index_Val in Hr as [Hr _]. apply lookup_ge_None in Hrow. lia. }
  assert (length row = w) as Hlen.
  { rewrite Forall_forall in Hw. apply Hw. by eapply list_elem_of_lookup_2. }
  destruct (py_index (length row) j) as [q|e'] eqn:Hq; simpl; [done|].
  intros [= <-]. apply py_index_Err in Hq as [-> Hq]. split; [done|].
  rewrite Hlen in Hq. tauto.
Qed.

Lemma set_letter_inside h w letters (a b : nat) c :
  has_shape h w letters → a < h → b < w →
  ∃ letters', set_letter letters (Z.of_nat a) (Z.of_nat b) c = Val letters' ∧
    letter_at letters' a b = Some (Some c) ∧
    ∀ a' b', (a', b') ≠ (a, b) → letter_at letters' a' b' = letter_at letters a' b'.
Proof.
  intros [Hh Hw] Ha Hb. unfold set_letter.
  rewrite py_index_inside by lia. simpl.
  destruct (lookup_lt_is_Some_2 letters a) as [row Hrow]; [lia|].
  rewrite Hrow.
  assert (length row = w) as Hlen.
  { rewrite Forall_forall in Hw. apply Hw. by eapply list_elem_of_lookup_2. }
  rewrite py_index_inside by lia. simpl. eexists. split; [done|].
  unfold letter_at. split.
  - rewrite list_lookup_insert_eq by lia. simpl.
    by rewrite list_lookup_insert_eq by lia.
  - intros a' b' Hne. destruct (decide (a' = a)) as [->|Hna].
    + rewrite list_lookup_insert_eq by lia. rewrite Hrow. simpl.
      rewrite list_lookup_insert_ne; [done|]. congruence.
    + by rewrite list_lookup_insert_ne.
Qed.

Lemma apply_writes_Val h w ws letters letters' :
  has_shape h w letters →
  apply_writes ws letters = Val letters' →
  has_shape h w letters' ∧
  ∀ i j c, (i, j, c) ∈ ws →
    (- Z.of_nat h ≤ i < Z.of_nat h)%Z ∧ (- Z.of_nat w ≤ j < Z.of_nat w)%Z.
Proof.
  revert letters. induction ws as [|[[i j] c] ws IH]; intros letters Hshape; simpl.
  { intros [= <-]. split; [done|]. by intros ??? ?%elem_of_nil. }
  intros (l1 & Hset & Hrest)%bind_Val.
  destruct (set_letter_Val _ _ _ _ _ _ _ Hshape Hset) as (Hshape1 & Hi & Hj).
  destruct (IH _ Hshape1 Hrest) as [Hshape' Hall]. split; [done|].
  intros i' j' c' [[= -> -> ->]|Hin]%elem_of_cons; [done|].
  by apply (Hall i' j' c').
Qed.

Lemma apply_writes_Err h w ws letters e :
  has_shape h w letters →
  apply_writes ws letters = Err e → e = IndexError.
Proof.
  revert letters. induction ws as [|[[i j] c] ws IH]; intros letters Hshape; simpl;
    [done|].
  destruct (set_letter letters i j c) as [l1|e'] eqn:Hset; simpl.
  - destruct (set_letter_Val _ _ _ _ _ _ _ Hshape Hset) as (Hshape1 & _).
    by apply IH.
  - intros [= <-]. by apply (set_letter_Err _ _ _ _ _ h w) in Hset as [-> _].
Qed.

Lemma apply_writes_inside h w ws letters :
  has_shape h w letters →
  (∀ i j c, (i, j, c) ∈ ws →
     (0 ≤ i < Z.of_nat h)%Z ∧ (0 ≤ j < Z.of_nat w)%Z) →
  (∀ i j c c', (i, j, c) ∈ ws → (i, j, c') ∈ ws → c = c') →
  ∃ letters', apply_writes ws letters = Val letters' ∧
    ∀ a b,
      (∀ c, (Z.of_nat a, Z.of_nat b, c) ∈ ws →
         letter_at letters' a b = Some (Some c)) ∧
      ((∀ c, (Z.of_nat a, Z.of_nat b, c) ∉ ws) →
         letter_at letters' a b = letter_at letters a b).
Proof.
  revert letters.
  induction ws as [|[[i j] c0] ws IH]; intros letters Hshape Hfit Hagree; simpl.
  { eexists. split; [done|]. intros a b.
    split; [by intros c ?%elem_of_nil|done]. }
  destruct (Hfit i j c0) as [Hi Hj]; [left|].
  destruct (set_letter_inside h w letters (Z.to_nat i) (Z.to_nat j) c0 Hshape)
    as (l1 & Hset & Hat & Hother); [lia|lia|].
  rewrite !Z2Nat.id in Hset by lia. rewrite Hset. simpl.
  destruct (set_letter_Val _ _ _ _ _ _ _ Hshape Hset) as (Hshape1 & _).
  destruct (IH l1 Hshape1) as (l' & Hl' & Hcontent).
  { intros i' j' c' ?. apply (Hfit i' j' c'). by right. }
  { intros i' j' c' c'' ??. apply (Hagree i' j' c' c''); by right. }
  exists l'. split; [done|]. intros a b.
  destruct (Hcontent a b) as [Hwritten Hkept]. split.
  - intros c [Hhead|Hin]%elem_of_cons; [|by apply Hwritten].
    injection Hhead as <- <- ->.
    destruct (decide (Exists (λ x, x.1 = (Z.of_nat a, Z.of_nat b)) ws))
      as [Hex|Hnex].
    + apply Exists_exists in Hex as ([[i' j'] c'] & Hin & [= -> ->]).
      rewrite (Hagree (Z.of_nat a) (Z.of_nat b) c0 c'); [|left|by right].
      by apply Hwritten.
    + rewrite Hkept.
      * by rewrite !Nat2Z.id in Hat.
      * intros c Hin. apply Hnex, Exists_exists. by exists (Z.of_nat a, Z.of_nat b, c).
  - intros Hnone. rewrite Hkept.
    + apply Hother. intros [= -> ->]. apply (Hnone c0).
      rewrite !Z2Nat.id by lia. left.
    + intros c Hin. apply (Hnone c). by right.
Qed.

Lemma letter_at_blank h w a b :
  a < h → b < w →
  letter_at (replicate h (replicate w None)) a b = Some None.
Proof.
  intros Ha Hb. unfold letter_at.
  rewrite lookup_replicate_2 by done. simpl. by rewrite lookup_replicate_2.
Qed.

Lemma has_shape_blank h w :
  has_shape h w (replicate h (replicate w (None : option Ascii.ascii))).
Proof.
  split; [apply length_replicate|].
  apply Forall_replicate, length_replicate.
Qed.

Lemma letter_at_shape h w letters a b :
  has_shape h w letters → a < h → b < w → is_Some (letter_at letters a b).
Proof.
  intros [Hh Hw] Ha Hb. unfold letter_at.
  destruct (lookup_lt_is_Some_2 letters a) as [row Hrow]; [lia|].
  rewrite Hrow. simpl. apply lookup_lt_is_Some_2.
  rewrite Forall_forall in Hw. rewrite (Hw row); [done|].
  by eapply list_elem_of_lookup_2.
Qed.

(** X23.  The grid [letter_grid] returns has the dimensions of the puzzle:
    [height] rows of [width] cells each (none for a negative dimension);
    and the only exception it raises is [IndexError]. *)
Theorem letter_grid_shape height width assignment :
  (∀ letters, letter_grid height width assignment = Val letters →
     length letters = Z.to_nat height ∧
     Forall (λ row, length row = Z.to_nat width) letters) ∧
  (∀ e, letter_grid height width assignment = Err e → e = IndexError).
Proof.
  unfold letter_grid. rewrite write_words_apply. split.
  - intros letters Hval.
    by destruct (apply_writes_Val _ _ _ _ _ (has_shape_blank _ _) Hval).
  - intros e. apply apply_writes_Err with (Z.to_nat height) (Z.to_nat width).
    apply has_shape_blank.
Qed.

(** X24.  The letters of [letter_grid].  When every letter of every assigned
    word falls on a cell inside the grid, and two words that cover the same
    cell carry the same letter there, [letter_grid] returns a grid in which
    a cell holds a letter exactly when some assigned word covers it with
    that letter, and [None] otherwise. *)
Theorem letter_grid_letters height width assignment :
  (∀ v word k c, assignment !! v = Some word → String.get k word = Some c →
     (0 ≤ (cell_of v k).1 < height)%Z ∧ (0 ≤ (cell_of v k).2 < width)%Z) →
  (∀ v word k c v' word' k' c',
     assignment !! v = Some word → String.get k word = Some c →
     assignment !! v' = Some word' → String.get k' word' = Some c' →
     cell_of v k = cell_of v' k' → c = c') →
  ∃ letters, letter_grid height width assignment = Val letters ∧
    ∀ a b, (Z.of_nat a < height)%Z → (Z.of_nat b < width)%Z →
      ∃ o, letter_at letters a b = Some o ∧
        ∀ c, o = Some c ↔
          ∃ v word k, assignment !! v = Some word ∧
            String.get k word = Some c ∧
            cell_of v k = (Z.of_nat a, Z.of_nat b).
Proof.
  intros Hfit Hagree. unfold letter_grid. rewrite write_words_apply.
  destruct (apply_writes_inside (Z.to_nat height) (Z.to_nat width)
              (writes_of (map_to_list assignment))
              (replicate (Z.to_nat height) (replicate (Z.to_nat width) None)))
    as (letters & Hval & Hcontent).
  - apply has_shape_blank.
  - intros i j c (v & word & k & Hv & Hk & Hcell)%elem_of_writes_of.
    specialize (Hfit v word k c Hv Hk). rewrite Hcell in Hfit. simpl in Hfit. lia.
  - intros i j c c' (v & word & k & Hv & Hk & Hcell)%elem_of_writes_of
      (v' & word' & k' & Hv' & Hk' & Hcell')%elem_of_writes_of.
    apply (Hagree v word k c v' word' k' c'); try done. congruence.
  - exists letters. split; [done|]. intros a b Ha Hb.
    destruct (apply_writes_Val _ _ _ _ _ (has_shape_blank _ _) Hval)
      as [Hshape _].
    destruct (letter_at_shape _ _ letters a b Hshape) as [o Ho]; [lia|lia|].
    exists o. split; [done|]. intros c.
    destruct (Hcontent a b) as [Hwritten Hkept].
    setoid_rewrite <-elem_of_writes_of. split.
    + intros ->.
      destruct (decide (Exists (λ x, x.1 = (Z.of_nat a, Z.of_nat b))
                          (writes_of (map_to_list assignment)))) as [Hex|Hnex].
      * apply Exists_exists in Hex as ([[i' j'] c'] & Hin & [= -> ->]).
        rewrite (Hwritten c' Hin) in Ho. by injection Ho as ->.
      * rewrite Hkept in Ho; [by rewrite letter_at_blank in Ho by lia|].
        intros c' Hin. apply Hnex, Exists_exists.
        by exists (Z.of_nat a, Z.of_nat b, c').
    + intros Hin. rewrite (Hwritten c Hin) in Ho. by injection Ho as <-.
Qed.

Lemma letter_grid_letters_witness :
  ∃ letters, letter_grid 1 3 {[ across := "CAT"%string ]} = Val letters ∧
    ∀ a b, (Z.of_nat a < 1)%Z → (Z.of_nat b < 3)%Z →
      ∃ o, letter_at letters a b = Some o ∧
        ∀ c, o = Some c ↔
          ∃ v word k, ({[ across := "CAT"%string ]} : Assignment) !! v
                      = Some word ∧
            String.get k word = Some c ∧
            cell_of v k = (Z.of_nat a, Z.of_nat b).
Proof.
  apply (letter_grid_letters 1 3 {[ across := "CAT"%string ]}).
  - intros v word k c [<- <-]%lookup_singleton_Some Hk.
    destruct k as [|[|[|k]]]; [| | |done]; vm_compute; done.
  - intros v word k c v' word' k' c'
      [<- <-]%lookup_singleton_Some Hk [<- <-]%lookup_singleton_Some Hk' Hcell.
    destruct k as [|[|[|k]]]; [| | |done];
      (destruct k' as [|[|[|k']]]; [| | |done]);
      simpl in Hk, Hk'; try congruence; by vm_compute in Hcell.
Defined.

(** X25.  A word that leaves the grid.  If some letter of an assigned word falls
    on a cell whose row or column is not a valid Python index of the grid
    (below [-height] or at least [height], and the same for columns),
    [letter_grid] raises [IndexError]. *)
Theorem letter_grid_index_error height width assignment v word k c :
  assignment !! v = Some word →
  String.get k word = Some c →
  ¬ ((- Z.of_nat (Z.to_nat height) ≤ (cell_of v k).1
      < Z.of_nat (Z.to_nat height))%Z ∧
     (- Z.of_nat (Z.to_nat width) ≤ (cell_of v k).2
      < Z.of_nat (Z.to_nat width))%Z) →
  letter_grid height width assignment = Err IndexError.
Proof.
  intros Hv Hk Hout. unfold letter_grid. rewrite write_words_apply.
  destruct (apply_writes _ _) as [letters|e] eqn:Happly.
  - destruct Hout.
    destruct (apply_writes_Val _ _ _ _ _ (has_shape_blank _ _) Happly)
      as [_ Hall].
    apply (Hall _ _ c). apply elem_of_writes_of. exists v, word, k.
    repeat (split; [done|]). by destruct (cell_of v k).
  - f_equal. apply (apply_writes_Err _ _ _ _ _ (has_shape_blank _ _) Happly).
Qed.

Lemma letter_grid_index_error_witness :
  letter_grid 2 3 {[ across := "CAT"; down := "ACE" ]}%string = Err IndexError.
Proof.
  eapply (letter_grid_index_error 2 3 _ down "ACE"%string 2).
  - vm_compute. reflexivity.
  - reflexivity.
  - unfold cell_of. simpl. lia.
Defined.
